(** * Task Sequencer: a shallow embedding of [index.ipynb]

    The notebook chooses the order in which to attempt the tasks of a
    project.  This development embeds its core functions
    ([check_perm], [validate_perms], [get_expected_times] and the numpy
    matrix helpers, [trim_df], [switch_from_names], [simulate_failures],
    [main]) and states the properties of the specification over them.

    Modelling conventions.
    - float64 values are real numbers ([R]); rounding, infinities and
      NaN are outside the model, so statements about scores are
      statements about the exact arithmetic the code performs.
    - a numpy vector is a [list R], a matrix a list of rows.
    - a Python exception is a value [Raise e] of the [result] monad.
    - the random draws of [symbulate] are an explicit oracle [draw].
    - the caller's DataFrame is threaded through [main] as state. *)

From Stdlib Require Import Reals Lra Lia ZArith QArith Sorted.
From stdpp Require Import base list strings gmap.

Set Warnings "-abstract-large-number".

(** ** Exceptions *)

Inductive exn :=
  | ValueError (msg : string)
  | KeyError
  | IndexError
  | TypeError.

Inductive result (A : Type) :=
  | Ok (a : A)
  | Raise (e : exn).
Arguments Ok {A} a.
Arguments Raise {A} e.

#[global] Instance result_ret : MRet result := @Ok.
#[global] Instance result_bind : MBind result := fun A B f r =>
  match r with Ok a => f a | Raise e => Raise e end.

#[global] Instance exn_eq_dec : EqDecision exn.
Proof. solve_decision. Defined.

#[global] Instance result_eq_dec {A} `{EqDecision A} : EqDecision (result A).
Proof. solve_decision. Defined.

(** ** numpy on real vectors and matrices *)

Module np.
Section Arrays.
Local Open Scope R_scope.

(** [np.prod(a)] and [np.sum(a)]: left-to-right reductions. *)
Definition prod (a : list R) : R := fold_left Rmult a 1.
Definition sum (a : list R) : R := fold_left Rplus a 0.

(** [np.prod(m, 1)] and [np.sum(m, 1)]: one reduction per row. *)
Definition prod_axis1 (m : list (list R)) : list R := prod <$> m.
Definition sum_axis1 (m : list (list R)) : list R := sum <$> m.

(** [np.repeat(np.expand_dims(arr, 0), repeats, axis=0)]. *)
Definition repeat_rows (arr : list R) (repeats : nat) : list (list R) :=
  replicate repeats arr.

(** [np.tril(m)] keeps the entries with column <= row. *)
Definition tril (m : list (list R)) : list (list R) :=
  imap (fun i row => imap (fun j x => if bool_decide (j ≤ i)%nat then x else 0) row) m.

(** [np.triu(m)] keeps the entries with row <= column. *)
Definition triu (m : list (list R)) : list (list R) :=
  imap (fun i row => imap (fun j x => if bool_decide (i ≤ j)%nat then x else 0) row) m.

(** [np.fill_diagonal(m, v)]; a row too short to have a diagonal entry
    is left as it is. *)
Definition fill_diagonal (m : list (list R)) (v : R) : list (list R) :=
  imap (fun i row => <[i:=v]> row) m.

(** [np.shape(m)] of a two-dimensional array. *)
Definition shape (m : list (list R)) : nat * nat :=
  (length m, from_option length 0%nat (head m)).

(** [np.ones(shape)]. *)
Definition ones (sh : nat * nat) : list (list R) :=
  replicate (fst sh) (replicate (snd sh) 1).

(** [np.diag(v)]: the square matrix with [v] on its diagonal. *)
Definition diag (v : list R) : list (list R) :=
  imap (fun i x => <[i:=x]> (replicate (length v) 0)) v.

(** Element-wise operators on arrays of one shape. *)
Definition add (a b : list R) : list R := zip_with Rplus a b.
Definition sub (a b : list R) : list R := zip_with Rminus a b.
Definition mul (a b : list R) : list R := zip_with Rmult a b.
Definition div (a b : list R) : list R := zip_with Rdiv a b.
Definition madd (a b : list (list R)) : list (list R) := zip_with add a b.

(** [np.log(a)]. *)
Definition log (a : list R) : list R := ln <$> a.

(** [1 - a] and [1 / a] with a scalar on the left. *)
Definition rsub (c : R) (a : list R) : list R := (fun x => c - x) <$> a.
Definition rdiv (c : R) (a : list R) : list R := (fun x => c / x) <$> a.

(** [a + c] with a scalar on the right. *)
Definition addc (a : list R) (c : R) : list R := (fun x => x + c) <$> a.

(** [np.argmin(a)]: the index of the first occurrence of the minimum;
    numpy raises [ValueError] on an empty sequence. *)
Fixpoint argmin_from (best_i : nat) (best : R) (i : nat) (a : list R) : nat :=
  match a with
  | [] => best_i
  | x :: a' =>
      if Rlt_dec x best then argmin_from i x (S i) a'
      else argmin_from best_i best (S i) a'
  end.

Definition argmin (a : list R) : result nat :=
  match a with
  | [] => Raise (ValueError "attempt to get argmin of an empty sequence")
  | x :: a' => Ok (argmin_from 0 x 1 a')
  end.

(** [np.sort(a)]: the values of [a] in ascending order. *)
Fixpoint insert_sorted (x : R) (a : list R) : list R :=
  match a with
  | [] => [x]
  | y :: a' => if Rle_dec x y then x :: a else y :: insert_sorted x a'
  end.

Definition sort (a : list R) : list R := foldr insert_sorted [] a.

(** [np.hstack(arrays)]; numpy raises [ValueError] on an empty list. *)
Definition hstack (arrays : list (list R)) : result (list R) :=
  match arrays with
  | [] => Raise (ValueError "need at least one array to concatenate")
  | _ => Ok (concat arrays)
  end.

(** [a[index]] with an array of non-negative positions. *)
Definition take_idx (a : list R) (index : list nat) : result (list R) :=
  mapM (fun i => match a !! i with
                 | Some x => Ok x
                 | None => Raise IndexError
                 end) index.
End Arrays.
End np.

(** [l[i]] on a Python list or tuple. *)
Definition list_index {A} (l : list A) (i : nat) : result A :=
  match l !! i with
  | Some x => Ok x
  | None => Raise IndexError
  end.

(** ** The task table *)

(** A cell of a dependency column: a number (a row index, or the
    sentinel 0 for "no dependency") or a task name. *)
Inductive cell :=
  | Num (z : Z)
  | Name (s : string).

(** One row of the DataFrame handed to [main]: the columns [Task],
    [Time], [Probability] and the dependency columns [D1], [D2], ... *)
Record task := {
  Task : string;
  Time : R;
  Probability : R;
  D : list cell
}.

Abbreviation DataFrame := (list task).

(** [series[np.array(perm) - 1]]: label lookup in a column whose labels
    are 0 .. n-1; a label that is absent raises [KeyError]. *)
Definition series_loc (series : list R) (perm : list nat) : result (list R) :=
  mapM (fun index =>
          match index with
          | O => Raise KeyError
          | S k => match series !! k with
                   | Some x => Ok x
                   | None => Raise KeyError
                   end
          end) perm.

(** ** Expected-time evaluator *)

Section Evaluator.
Local Open Scope R_scope.

Definition expand_to_lower_tri_mat (arr : list R) : list (list R) :=
  let square_mat := np.repeat_rows arr (length arr) in
  np.tril square_mat.

Definition prob_prod_arr (prob_mat : list (list R)) (prob_col : list R) : list R :=
  let prob_mat := np.fill_diagonal prob_mat 0 in
  let ones := np.triu (np.ones (np.shape prob_mat)) in
  let ones := np.fill_diagonal ones 0 in
  np.prod_axis1 (np.madd (np.madd ones prob_mat) (np.diag prob_col)).

Definition sum_times (time_mat : list (list R)) : list R :=
  let time_mat := np.fill_diagonal time_mat 0 in
  np.sum_axis1 time_mat.

Definition expected_time_eq (prod_arr sum_arr time_col prob_col prob_comp : list R) : R :=
  let prob_succ := np.prod prob_comp in
  let total_time := np.sum time_col in
  let exp_time_given_fail_on_task :=
    np.add (np.add (np.sub sum_arr (np.div time_col prob_col))
                   (np.div time_col (np.log (np.rdiv 1 (np.rsub 1 prob_col)))))
           time_col in
  let prob_fail_on_task := prod_arr in
  prob_succ * total_time
  + np.sum (np.mul prob_fail_on_task exp_time_given_fail_on_task).

(** The body of the loop of [get_expected_times] for one ordering. *)
Definition expected_time (df : DataFrame) (perm : list nat) : result R :=
  prob_col ← series_loc (Probability <$> df) perm;
  let prob_comp := np.rsub 1 prob_col in
  let prob_mat := expand_to_lower_tri_mat prob_comp in
  let prod_arr := prob_prod_arr prob_mat prob_col in
  time_col ← series_loc (Time <$> df) perm;
  let time_mat := expand_to_lower_tri_mat time_col in
  let sum_arr := sum_times time_mat in
  Ok (expected_time_eq prod_arr sum_arr time_col prob_col prob_comp).

Definition get_expected_times (perms : list (list nat)) (df : DataFrame)
  : result (list R) :=
  mapM (expected_time df) perms.

(** *** The closed form of the specification (section 4.3)

    Written from the specification's words, with the tasks indexed
    0 .. n-1 in the ordering's sequence. *)

Fixpoint big_sum (f : nat → R) (n : nat) : R :=
  match n with
  | O => 0
  | S m => big_sum f m + f m
  end.

Fixpoint big_prod (f : nat → R) (n : nat) : R :=
  match n with
  | O => 1
  | S m => big_prod f m * f m
  end.

Definition closed_form (p t : list R) : R :=
  let n := length p in
  let P i := nth i p 0 in
  let T i := nth i t 0 in
  big_prod (fun i => 1 - P i) n * big_sum T n
  + big_sum (fun i =>
               (P i * big_prod (fun k => 1 - P k) i)
               * (big_sum T i - T i / P i + T i / ln (1 / (1 - P i)) + T i)) n.

(** A column re-indexed in the ordering's sequence. *)
Definition reindex (col : list R) (perm : list nat) : list R :=
  (fun index => nth (index - 1) col 0) <$> perm.
End Evaluator.

(** ** Permutation enumerator *)

(** Every way of picking one element of [l], with the remaining
    elements in their original order. *)
Fixpoint selections {A} (l : list A) : list (A * list A) :=
  match l with
  | [] => []
  | x :: xs => (x, xs) :: ((fun s => (fst s, x :: snd s)) <$> selections xs)
  end.

(** [itertools.permutations(l)], in the order itertools emits them:
    lexicographic in the positions of [l]. *)
Fixpoint permutations_fuel {A} (fuel : nat) (l : list A) : list (list A) :=
  match fuel with
  | O => [[]]
  | S fuel' =>
      match l with
      | [] => [[]]
      | _ => s ← selections l; (cons (fst s)) <$> permutations_fuel fuel' (snd s)
      end
  end.

Definition permutations {A} (l : list A) : list (list A) :=
  permutations_fuel (length l) l.

Definition gen_perms (df : DataFrame) : list (list nat) :=
  let rows := length df in
  permutations (seq 1 rows).

(** ** Dependency validator *)

(** [deps[index-1, :]] on a numpy matrix: position -1 is the last row,
    a position past the end raises [IndexError]. *)
Definition deps_row (deps : list (list cell)) (index : nat) : result (list cell) :=
  match index with
  | O => match last deps with
         | Some dep => Ok dep
         | None => Raise IndexError
         end
  | S k => match deps !! k with
           | Some dep => Ok dep
           | None => Raise IndexError
           end
  end.

(** [elem in prev_ind]: a number is found when it equals an entry, a
    string never equals an integer. *)
Definition elem_in (elem : cell) (prev_ind : list nat) : bool :=
  match elem with
  | Num z => existsb (fun i => Z.eqb z (Z.of_nat i)) prev_ind
  | Name _ => false
  end.

Fixpoint check_perm_loop (prev_ind : list nat) (perm : list nat)
    (deps : list (list cell)) : result bool :=
  match perm with
  | [] => Ok true
  | index :: perm' =>
      let prev_ind := prev_ind ++ [index] in
      dep ← deps_row deps index;
      if negb (forallb (fun elem => elem_in elem prev_ind) dep) then Ok false
      else check_perm_loop prev_ind perm' deps
  end.

Definition check_perm (perm : list nat) (deps : list (list cell)) : result bool :=
  check_perm_loop [0%nat] perm deps.

Fixpoint validate_perms (perms : list (list nat)) (deps : list (list cell))
    : result (list (list nat)) :=
  match perms with
  | [] => Ok []
  | perm :: perms' =>
      ok ← check_perm perm deps;
      valid_perms ← validate_perms perms' deps;
      Ok (if (ok : bool) then perm :: valid_perms else valid_perms)
  end.

(** ** Names and row numbers *)

(** [dict(zip(keys, values))]: a later pair overrides an earlier one. *)
Definition dict_of_pairs {K V} `{Countable K} (pairs : list (K * V)) : gmap K V :=
  fold_left (fun m kv => <[fst kv := snd kv]> m) pairs ∅.

Definition name_to_row_dict (df : DataFrame) : gmap string nat :=
  dict_of_pairs (zip (Task <$> df) (seq 1 (length df))).

Definition row_to_name_dict (df : DataFrame) : gmap nat string :=
  dict_of_pairs (zip (seq 1 (length df)) (Task <$> df)).

(** [DataFrame.replace(d)] on one dependency cell. *)
Definition replace_cell (d : gmap string nat) (c : cell) : cell :=
  match c with
  | Name s => match d !! s with
              | Some row => Num (Z.of_nat row)
              | None => c
              end
  | Num _ => c
  end.

(** [switch_from_names] assigns into [df.iloc[:,3:]]: the frame it
    returns is the caller's frame, rewritten in place. *)
Definition switch_from_names (df : DataFrame) : DataFrame :=
  let d := name_to_row_dict df in
  (fun row => {| Task := Task row; Time := Time row;
                 Probability := Probability row;
                 D := replace_cell d <$> D row |}) <$> df.

Definition present_task_names (arr : list nat) (df : DataFrame) : result (list string) :=
  let row_to_name := row_to_name_dict df in
  mapM (fun row => match row_to_name !! row with
                   | Some name => Ok name
                   | None => Raise KeyError
                   end) arr.

(** [best_df.replace(name_to_row_dict(df)).values.flatten() - 1]: a
    name that is no key stays a string, and [- 1] on it is a
    [TypeError]. *)
Definition rows_of_names (names : list string) (df : DataFrame) : result (list nat) :=
  let name_to_row := name_to_row_dict df in
  mapM (fun name => match name_to_row !! name with
                    | Some row => Ok (row - 1)%nat
                    | None => Raise TypeError
                    end) names.

(** ** Failure-time simulator *)

#[global] Instance Rle_decision (x y : R) : Decision (x <= y)%R := Rle_dec x y.

Section Simulator.
Local Open Scope R_scope.

(** [draw call rate k]: the k-th value that the [call]-th sampling
    from [Exponential(rate)] returns. *)
Variable draw : nat → R → nat → R.

(** [RV(Exponential(rate=rate)).sim(n)] for the [call]-th time. *)
Definition sim (call : nat) (rate : R) (n : nat) : list R :=
  draw call rate <$> seq 0 n.

Definition filter_leq (trials : list R) (value : R) : list R :=
  filter (fun x => x <= value) trials.

Definition get_lambdas (time prob : list R) : list R :=
  np.mul (np.rdiv 1 time) (np.log (np.rdiv 1 (np.rsub 1 prob))).

(** The variables the loop of [simulate_failures] updates. *)
Record sim_state := {
  totals : list (list R);
  success_count : nat;
  prior_task_time : R
}.

Definition sim_step (time : list R) (st : sim_state) (j_rate : nat * R) : sim_state :=
  let j := fst j_rate in
  let rate := snd j_rate in
  let trials := sim j rate (success_count st) in
  let failed := filter_leq trials (nth j time 0) in
  {| totals := totals st ++ [np.addc failed (prior_task_time st)];
     success_count := (length trials - length failed)%nat;
     prior_task_time := prior_task_time st + nth j time 0 |}.

(** The variables on entry to the loop. *)
Definition sim_init : sim_state :=
  {| totals := []; success_count := 50000; prior_task_time := 0 |}.

(** The variables after the first [j] passes of the loop over
    [enumerate(lambdas)]. *)
Definition sim_state_after (time lambdas : list R) (j : nat) : sim_state :=
  fold_left (sim_step time) (take j (imap pair lambdas)) sim_init.

Definition simulate_failures (df : DataFrame) (index : list nat) : result (list R) :=
  prob ← np.take_idx (Probability <$> df) index;
  time ← np.take_idx (Time <$> df) index;
  let lambdas := get_lambdas time prob in
  let st := fold_left (sim_step time) (imap pair lambdas) sim_init in
  np.hstack (totals st).
End Simulator.

(** ** The driver *)

(** The locals of [main] once the best ordering is known. *)
Record search := {
  valid_perms : list (list nat);
  sums : list R;
  sorted_sums : list R;
  best_order : list nat;
  best_df : list string;
  best_index : list nat
}.

(** What [main] displays: the optimal order, [sorted_sums[0]],
    [np.prod(1 - probs)] and the two series handed to [plot_fig]. *)
Record report := {
  optimal_order : list string;
  expected_time_shown : R;
  success_prob_shown : R;
  plot_sorted_sums : list R;
  plot_hist_vals : list R
}.

(** [main] from [deps = ...] to [best_index = ...], on the frame that
    [switch_from_names] has rewritten. *)
Definition main_search (df : DataFrame) : result search :=
  let deps := D <$> df in
  let perms := gen_perms df in
  valid_perms ← validate_perms perms deps;
  sums ← get_expected_times valid_perms df;
  let sorted_sums := np.sort sums in
  i ← np.argmin sums;
  best_order ← list_index valid_perms i;
  best_df ← present_task_names best_order df;
  best_index ← rows_of_names best_df df;
  Ok {| valid_perms := valid_perms; sums := sums; sorted_sums := sorted_sums;
        best_order := best_order; best_df := best_df;
        best_index := best_index |}.

(** [simulate_failures(df, best_index)] as [main] calls it.
    [best_index] is the [values] of a frame: for an ordering of at
    least one task they are integers, but the values of a frame
    without rows form an object-dtype array, which numpy refuses as an
    index ([IndexError] at [prob = ...[index]]). *)
Definition simulate_best (draw : nat → R → nat → R) (df : DataFrame)
    (best_index : list nat) : result (list R) :=
  match best_index with
  | [] => Raise IndexError
  | _ => simulate_failures draw df best_index
  end.

Definition main_report (draw : nat → R → nat → R) (df : DataFrame) (s : search)
    : result report :=
  let probs := Probability <$> df in
  hist_vals ← simulate_best draw df (best_index s);
  shown ← list_index (sorted_sums s) 0;
  Ok {| optimal_order := best_df s;
        expected_time_shown := shown;
        success_prob_shown := np.prod (np.rsub 1%R probs);
        plot_sorted_sums := sorted_sums s;
        plot_hist_vals := hist_vals |}.

(** [main(df)]: the first component is the caller's frame when [main]
    returns or raises, the second what [main] displayed or raised. *)
Definition main (draw : nat → R → nat → R) (df : DataFrame)
    : DataFrame * result report :=
  let df := switch_from_names df in
  (df, main_search df ≫= main_report draw df).

(** ** Pre-processing: [trim_df] *)

(** A cell of the sheet after [fill_blanks]: a number (0 for a blank
    cell) or a string. *)
Inductive sheet_cell :=
  | SNum (q : Q)
  | SStr (s : string).

(** [cell == 0]. *)
Definition is_zero (c : sheet_cell) : bool :=
  match c with
  | SNum q => Qeq_bool q 0
  | SStr _ => false
  end.

(** The sheet as a frame: [df.shape = (length values, columns)], every
    row holding [columns] cells. *)
Record frame := {
  columns : nat;
  values : list (list sheet_cell)
}.

(** [(df.values==0).all(axis=1)]: one flag per row. *)
Definition all_zero_axis1 (df : frame) : list bool :=
  forallb is_zero <$> values df.

(** [(df.values==0).all(axis=0)]: one flag per column. *)
Definition all_zero_axis0 (df : frame) : list bool :=
  (fun j => forallb (fun row => from_option is_zero true (row !! j)) (values df))
    <$> seq 0 (columns df).

(** [np.where(flags)[0]]: the positions holding [True]. *)
Fixpoint where_from (i : nat) (flags : list bool) : list nat :=
  match flags with
  | [] => []
  | b :: flags' => if b then i :: where_from (S i) flags' else where_from (S i) flags'
  end.

Definition np_where (flags : list bool) : list nat := where_from 0 flags.

(** One pass of the loop of [trim_df]: the entry of [nonzero_shape]
    computed from the flags of one axis. *)
Definition nonzero_extent (zero_bool : list bool) (extent : nat) : nat :=
  let zero_locs := np_where zero_bool in
  match zero_locs with
  | [] => extent - 1
  | loc :: _ => loc
  end.

(** [df.iloc[:r, :c]]; for an extent of 0 the bound [extent - 1] is the
    slice end -1, which keeps nothing of an empty axis, as [take 0]. *)
Definition iloc_upto (df : frame) (r c : nat) : frame :=
  {| columns := Nat.min c (columns df);
     values := take c <$> take r (values df) |}.

Definition trim_df (df : frame) : frame :=
  let nonzero_rows := nonzero_extent (all_zero_axis1 df) (length (values df)) in
  let nonzero_cols := nonzero_extent (all_zero_axis0 df) (columns df) in
  iloc_upto df nonzero_rows nonzero_cols.

(** ** Auxiliary notions used by the statements *)

(** The vector [f 0, ..., f (n-1)]. *)
Definition tab {A} (f : nat → A) (n : nat) : list A := f <$> seq 0 n.

(** *** Feasibility (specification, section 4.2) *)

(** The dependencies that the table declares for the task with 1-based
    row number [index]. *)
Definition declared_deps (deps : list (list cell)) (index : nat) : list cell :=
  default [] (deps !! (index - 1)).

(** [elem] names a task placed at a position strictly before [k]. *)
Definition placed_before (perm : list nat) (k : nat) (elem : cell) : Prop :=
  ∃ j i, j < k ∧ perm !! j = Some i ∧ elem = Num (Z.of_nat i).

(** An ordering is feasible when every declared dependency of the task
    at position [k] is the sentinel 0 or is placed strictly before
    [k]. *)
Definition feasible (perm : list nat) (deps : list (list cell)) : Prop :=
  ∀ k index elem,
    perm !! k = Some index →
    elem ∈ declared_deps deps index →
    elem = Num 0 ∨ placed_before perm k elem.

(** No task of the ordering lists itself among its dependencies. *)
Definition no_self_dependency (perm : list nat) (deps : list (list cell)) : Prop :=
  ∀ index, index ∈ perm → Num (Z.of_nat index) ∉ declared_deps deps index.

(** What the loop of [check_perm] tests: at position [k], every declared
    dependency is in the list seeded with [prev_ind] and extended with
    the entries up to and including position [k]. *)
Definition loop_accepts (prev_ind perm : list nat) (deps : list (list cell)) : Prop :=
  ∀ k index elem,
    perm !! k = Some index →
    elem ∈ declared_deps deps index →
    elem_in elem (prev_ind ++ take (S k) perm) = true.

(** *** Selection (specification, section 4.4) *)

(** [m] is the least value of [a] and [k] the first position holding
    it. *)
Definition first_minimum (a : list R) (k : nat) (m : R) : Prop :=
  a !! k = Some m
  ∧ (∀ j s, a !! j = Some s → (m <= s)%R)
  ∧ (∀ j s, j < k → a !! j = Some s → (m < s)%R).

(** *** Simulation (specification, section 4.5)

    Written from the specification's words: the trials that fail in
    step [j], the pool alive on entry to step [j], the time elapsed
    before step [j] and the failure times step [j] records. *)

Section SimulatorSpec.
Local Open Scope R_scope.
Variable draw : nat → R → nat → R.
Variables time lambdas : list R.

(** The values drawn in step [j] for a pool of [pool] trials that are
    at most the duration of task [j]. *)
Definition spec_failed (j pool : nat) : list R :=
  filter (fun x => x <= nth j time 0) (draw j (nth j lambdas 0) <$> seq 0 pool).

Fixpoint spec_alive (j : nat) : nat :=
  match j with
  | O => 50000
  | S j' => (spec_alive j' - length (spec_failed j' (spec_alive j')))%nat
  end.

Definition spec_elapsed (j : nat) : R := big_sum (fun i => nth i time 0) j.

Definition spec_recorded (j : nat) : list R :=
  (fun x => spec_elapsed j + x) <$> spec_failed j (spec_alive j).
End SimulatorSpec.

(** *** What [main] does to a dependency cell

    [rewritten_cell names c c']: [c'] is what a dependency cell holding
    [c] holds after the run, in a table whose task names are [names]. *)
Inductive rewritten_cell (names : list string) : cell → cell → Prop :=
  | keep_number z :
      rewritten_cell names (Num z) (Num z)
  | keep_unknown_name s :
      s ∉ names →
      rewritten_cell names (Name s) (Name s)
  | name_to_row_number s r :
      names !! r = Some s →
      (∀ r', r < r' → names !! r' ≠ Some s) →
      rewritten_cell names (Name s) (Num (Z.of_nat (S r))).

(** [main] stops in [np.argmin] on an empty sequence. *)
Definition crashes_on_empty_argmin {A} (r : result A) : Prop :=
  r = Raise (ValueError "attempt to get argmin of an empty sequence").

(** ** Example inputs *)

(** Two independent tasks (specification, section 8). *)
Definition df_two : DataFrame :=
  [ {| Task := "A"; Time := 2; Probability := 0.5; D := [Num 0] |};
    {| Task := "B"; Time := 3; Probability := 0.2; D := [Num 0] |} ].

(** Task B names task A as its prerequisite. *)
Definition df_forced : DataFrame :=
  [ {| Task := "A"; Time := 2; Probability := 0.5; D := [Num 0] |};
    {| Task := "B"; Time := 3; Probability := 0.2; D := [Name "A"] |} ].

(** A and B name each other. *)
Definition df_cyclic : DataFrame :=
  [ {| Task := "A"; Time := 2; Probability := 0.5; D := [Name "B"] |};
    {| Task := "B"; Time := 3; Probability := 0.2; D := [Name "A"] |} ].

(** Task A names itself. *)
Definition df_self : DataFrame :=
  [ {| Task := "A"; Time := 2; Probability := 0.5; D := [Name "A"] |};
    {| Task := "B"; Time := 3; Probability := 0.2; D := [Num 0] |} ].

(** Task A has failure probability 1.0. *)
Definition df_p_one : DataFrame :=
  [ {| Task := "A"; Time := 2; Probability := 1; D := [Num 0] |};
    {| Task := "B"; Time := 3; Probability := 0.2; D := [Num 0] |} ].

(** Twelve independent tasks named "A" .. "L". *)
Definition df_twelve : DataFrame :=
  (fun i => {| Task := String (Ascii.ascii_of_nat (65 + i)) EmptyString;
               Time := 1; Probability := 0.5; D := [Num 0] |}) <$> seq 0 12.

(** A sampler that draws the value 1 every time. *)
Definition draw_one : nat → R → nat → R := fun _ _ _ => 1%R.

(** A 2 x 4 sheet with no blank row and no blank column. *)
Definition sheet_full : frame :=
  {| columns := 4;
     values := [ [SStr "A"; SNum 2; SNum 0.5; SNum 0];
                 [SStr "B"; SNum 3; SNum 0.2; SStr "A"] ] |}.

(** A 3 x 5 sheet whose second row was left blank. *)
Definition sheet_gap : frame :=
  {| columns := 5;
     values := [ [SStr "A"; SNum 2; SNum 0.5; SNum 0; SNum 0];
                 [SNum 0; SNum 0; SNum 0; SNum 0; SNum 0];
                 [SStr "B"; SNum 3; SNum 0.2; SStr "A"; SNum 0] ] |}.

(** ** More of the notebook *)

(** [DataFrame.replace(d)] with the row-to-name dictionary on one
    dependency cell: a number equal to a key (1.0 equals 1) is replaced
    with the name in that row; a string equals no key. *)
Definition replace_row (d : gmap nat string) (c : cell) : cell :=
  match c with
  | Num z => if bool_decide (0 ≤ z)%Z
             then match d !! Z.to_nat z with
                  | Some name => Name name
                  | None => c
                  end
             else c
  | Name _ => c
  end.

(** [switch_to_names] assigns into [df.iloc[:,3:]] as
    [switch_from_names] does. *)
Definition switch_to_names (df : DataFrame) : DataFrame :=
  let d := row_to_name_dict df in
  (fun row => {| Task := Task row; Time := Time row;
                 Probability := Probability row;
                 D := replace_row d <$> D row |}) <$> df.

(** A cell of the sheet as it is read: missing (NaN), a number or a
    string. *)
Inductive raw_cell :=
  | RNaN
  | RNum (q : Q)
  | RStr (s : string).

Record raw_frame := {
  raw_columns : nat;
  raw_values : list (list raw_cell)
}.

(** [fillna(0)] followed by [replace(["", "0"], 0)] on one cell. *)
Definition fill_cell (c : raw_cell) : sheet_cell :=
  match c with
  | RNaN => SNum 0
  | RNum q => SNum q
  | RStr s => if bool_decide (s = "" ∨ s = "0") then SNum 0 else SStr s
  end.

Definition fill_blanks (df : raw_frame) : frame :=
  {| columns := raw_columns df;
     values := (fun row : list raw_cell => fill_cell <$> row) <$> raw_values df |}.

(** A cell that [fill_blanks] turns into 0. *)
Definition blank (c : raw_cell) : Prop :=
  match c with
  | RNaN => True
  | RNum q => Qeq_bool q 0 = true
  | RStr s => s = "" ∨ s = "0"
  end.

(** The three-task table used to illustrate the further properties:
    C needs A and B, B needs A. *)
Definition df_three : DataFrame :=
  [ {| Task := "A"; Time := 2; Probability := 0.5; D := [Num 0; Num 0] |};
    {| Task := "B"; Time := 3; Probability := 0.2; D := [Name "A"; Num 0] |};
    {| Task := "C"; Time := 1; Probability := 0.1; D := [Name "A"; Name "B"] |} ].

(** Task B names a task that is not in the table. *)
Definition df_unknown : DataFrame :=
  [ {| Task := "A"; Time := 2; Probability := 0.5; D := [Num 0] |};
    {| Task := "B"; Time := 3; Probability := 0.2; D := [Name "Z"] |} ].

(** * Properties *)

(** ** The [result] monad *)

Lemma mapM_result_ok {A B} (f : A → result B) (g : A → B) (l : list A) :
  (∀ x, x ∈ l → f x = Ok (g x)) → mapM f l = Ok (g <$> l).
Proof.
  induction l as [|x l IH]; intros Hf; [reflexivity|].
  cbn. rewrite (Hf x) by apply list_elem_of_here. cbn.
  rewrite IH; [reflexivity|].
  intros y Hy. apply Hf. by apply list_elem_of_further.
Qed.

Lemma mapM_result_length {A B} (f : A → result B) (l : list A) (k : list B) :
  mapM f l = Ok k → length k = length l.
Proof.
  revert k. induction l as [|x l IH]; intros k; cbn.
  - intros [= <-]. reflexivity.
  - destruct (f x) as [y|e]; cbn; [|discriminate].
    destruct (mapM f l) as [k'|e]; cbn; [|discriminate].
    intros [= <-]. cbn. f_equal. by apply IH.
Qed.

Lemma mapM_result_lookup {A B} (f : A → result B) (l : list A) (k : list B) i x :
  mapM f l = Ok k → l !! i = Some x → ∃ y, k !! i = Some y ∧ f x = Ok y.
Proof.
  revert k i. induction l as [|a l IH]; intros k i; cbn; [intros _ [=]|].
  destruct (f a) as [y|e] eqn:Hfa; cbn; [|discriminate].
  destruct (mapM f l) as [k'|e]; cbn; [|discriminate].
  intros [= <-]. destruct i as [|i]; cbn.
  - intros [= <-]. eauto.
  - intros Hi. by apply IH.
Qed.

(** ** Vectors as tabulated functions *)

Section Tabulate.
Context {A : Type}.
Implicit Types f g : nat → A.

Lemma length_tab f n : length (tab f n) = n.
Proof. unfold tab. by rewrite length_fmap, length_seq. Qed.

Lemma tab_lookup_lt f n j : j < n → tab f n !! j = Some (f j).
Proof.
  intros Hj. unfold tab. rewrite list_lookup_fmap.
  by rewrite (lookup_seq_lt _ _ _ Hj).
Qed.

Lemma tab_lookup_ge f n j : n ≤ j → tab f n !! j = None.
Proof. intros Hj. apply lookup_ge_None. by rewrite length_tab. Qed.

Lemma tab_ext f g n : (∀ j, j < n → f j = g j) → tab f n = tab g n.
Proof.
  intros Hfg. apply list_eq. intros j.
  destruct (decide (j < n)) as [Hj|Hj].
  - rewrite !tab_lookup_lt by done. f_equal. by apply Hfg.
  - rewrite !tab_lookup_ge by lia. done.
Qed.

Lemma tab_nth (l : list A) (d : A) : l = tab (fun j => nth j l d) (length l).
Proof.
  apply list_eq. intros j. destruct (decide (j < length l)) as [Hj|Hj].
  - rewrite tab_lookup_lt by done. rewrite nth_lookup.
    destruct (lookup_lt_is_Some_2 l j Hj) as [x ->]. done.
  - rewrite tab_lookup_ge by lia. apply lookup_ge_None. lia.
Qed.

Lemma tab_S f n : tab f (S n) = tab f n ++ [f n].
Proof. unfold tab. by rewrite seq_S, fmap_app. Qed.

Lemma replicate_tab n (x : A) : replicate n x = tab (fun _ => x) n.
Proof.
  apply list_eq. intros j. destruct (decide (j < n)) as [Hj|Hj].
  - by rewrite tab_lookup_lt, lookup_replicate_2.
  - rewrite tab_lookup_ge by lia. apply lookup_ge_None.
    rewrite length_replicate. lia.
Qed.

Lemma insert_tab f n i (x : A) :
  <[i:=x]> (tab f n) = tab (fun j => if decide (j = i) then x else f j) n.
Proof.
  apply list_eq. intros j. destruct (decide (j < n)) as [Hj|Hj].
  - rewrite tab_lookup_lt by done. destruct (decide (j = i)) as [->|Hne].
    + apply list_lookup_insert_eq. by rewrite length_tab.
    + rewrite list_lookup_insert_ne by done. by apply tab_lookup_lt.
  - rewrite tab_lookup_ge by lia. apply lookup_ge_None.
    rewrite length_insert, length_tab. lia.
Qed.
End Tabulate.

Lemma fmap_tab {A B} (g : A → B) (f : nat → A) n : g <$> tab f n = tab (g ∘ f) n.
Proof. unfold tab. by rewrite <- list_fmap_compose. Qed.

Lemma imap_tab {A B} (g : nat → A → B) (f : nat → A) n :
  imap g (tab f n) = tab (fun j => g j (f j)) n.
Proof.
  apply list_eq. intros j. rewrite list_lookup_imap.
  destruct (decide (j < n)) as [Hj|Hj].
  - by rewrite !tab_lookup_lt.
  - by rewrite !tab_lookup_ge by lia.
Qed.

Lemma zip_with_tab {A B C} (h : A → B → C) (f : nat → A) (g : nat → B) n :
  zip_with h (tab f n) (tab g n) = tab (fun j => h (f j) (g j)) n.
Proof.
  apply list_eq. intros j. rewrite lookup_zip_with.
  destruct (decide (j < n)) as [Hj|Hj].
  - by rewrite !tab_lookup_lt.
  - by rewrite !tab_lookup_ge by lia.
Qed.

(** ** Reductions and the triangular matrices *)

Section EvaluatorFacts.
Local Open Scope R_scope.

Lemma fold_mult_acc (a : list R) (c : R) : fold_left Rmult a c = c * np.prod a.
Proof.
  unfold np.prod. revert c. induction a as [|x a IH]; intros c; cbn.
  - ring.
  - rewrite (IH (c * x)), (IH (1 * x)). ring.
Qed.

Lemma fold_plus_acc (a : list R) (c : R) : fold_left Rplus a c = c + np.sum a.
Proof.
  unfold np.sum. revert c. induction a as [|x a IH]; intros c; cbn.
  - ring.
  - rewrite (IH (c + x)), (IH (0 + x)). ring.
Qed.

Lemma prod_tab (f : nat → R) n : np.prod (tab f n) = big_prod f n.
Proof.
  induction n as [|n IH]; [reflexivity|].
  rewrite tab_S. unfold np.prod. rewrite fold_left_app. cbn.
  fold (np.prod (tab f n)). by rewrite IH.
Qed.

Lemma sum_tab (f : nat → R) n : np.sum (tab f n) = big_sum f n.
Proof.
  induction n as [|n IH]; [reflexivity|].
  rewrite tab_S. unfold np.sum. rewrite fold_left_app. cbn.
  fold (np.sum (tab f n)). by rewrite IH.
Qed.

Lemma big_prod_ext (f g : nat → R) n :
  (∀ j, (j < n)%nat → f j = g j) → big_prod f n = big_prod g n.
Proof.
  induction n as [|n IH]; intros Hfg; [reflexivity|].
  cbn. rewrite IH, (Hfg n) by (intros; try apply Hfg; lia). done.
Qed.

Lemma big_sum_ext (f g : nat → R) n :
  (∀ j, (j < n)%nat → f j = g j) → big_sum f n = big_sum g n.
Proof.
  induction n as [|n IH]; intros Hfg; [reflexivity|].
  cbn. rewrite IH, (Hfg n) by (intros; try apply Hfg; lia). done.
Qed.

(** A row that agrees with [g] before column [i], holds [c] at column
    [i] and 1 after it multiplies to the product of the first [i]
    values of [g] times [c]. *)
Lemma big_prod_row (f g : nat → R) (c : R) (i n : nat) :
  (i < n)%nat →
  (∀ j, (j < i)%nat → f j = g j) →
  f i = c →
  (∀ j, (i < j < n)%nat → f j = 1) →
  big_prod f n = big_prod g i * c.
Proof.
  intros Hi Hlt Heq Hgt. induction n as [|n IH]; [lia|].
  cbn. destruct (decide (i = n)) as [->|Hne].
  - rewrite Heq. f_equal. by apply big_prod_ext.
  - rewrite IH, (Hgt n) by (intros; try apply Hgt; lia). ring.
Qed.

(** A row that agrees with [g] before column [i] and holds 0 from
    column [i] on sums to the sum of the first [i] values of [g]. *)
Lemma big_sum_row (f g : nat → R) (i n : nat) :
  (i ≤ n)%nat →
  (∀ j, (j < i)%nat → f j = g j) →
  (∀ j, (i ≤ j < n)%nat → f j = 0) →
  big_sum f n = big_sum g i.
Proof.
  intros Hi Hlt Hge. induction n as [|n IH].
  - assert (i = 0%nat) as -> by lia. reflexivity.
  - destruct (decide (i = S n)) as [->|Hne].
    + by apply big_sum_ext.
    + cbn. rewrite IH, (Hge n) by (intros; try apply Hge; lia). ring.
Qed.

Lemma expand_to_lower_tri_mat_tab (arr : list R) :
  expand_to_lower_tri_mat arr =
  tab (fun i => tab (fun j => if bool_decide (j ≤ i)%nat then nth j arr 0 else 0)
                    (length arr)) (length arr).
Proof.
  unfold expand_to_lower_tri_mat, np.repeat_rows, np.tril.
  rewrite replicate_tab, imap_tab. apply tab_ext. intros i _.
  rewrite (tab_nth arr 0) at 1. by rewrite imap_tab.
Qed.

Lemma fill_diagonal_tab (f : nat → nat → R) (v : R) n m :
  np.fill_diagonal (tab (fun i => tab (f i) m) n) v =
  tab (fun i => tab (fun j => if decide (j = i) then v else f i j) m) n.
Proof.
  unfold np.fill_diagonal. rewrite imap_tab. apply tab_ext. intros i _.
  by rewrite insert_tab.
Qed.

Lemma shape_square (f : nat → nat → R) n :
  np.shape (tab (fun i => tab (f i) n) n) = (n, n).
Proof.
  unfold np.shape. rewrite length_tab. f_equal.
  destruct n as [|n]; [reflexivity|]. cbn. by rewrite length_fmap, length_seq.
Qed.

Lemma ones_tab n m : np.ones (n, m) = tab (fun _ => tab (fun _ => 1) m) n.
Proof. unfold np.ones. cbn. by rewrite !replicate_tab. Qed.

Lemma triu_tab (f : nat → nat → R) n m :
  np.triu (tab (fun i => tab (f i) m) n) =
  tab (fun i => tab (fun j => if bool_decide (i ≤ j)%nat then f i j else 0) m) n.
Proof.
  unfold np.triu. rewrite imap_tab. apply tab_ext. intros i _.
  by rewrite imap_tab.
Qed.

Lemma diag_tab (v : list R) :
  np.diag v =
  tab (fun i => tab (fun j => if decide (j = i) then nth i v 0 else 0) (length v))
      (length v).
Proof.
  unfold np.diag. rewrite (tab_nth v 0) at 1. rewrite imap_tab.
  apply tab_ext. intros i _. by rewrite replicate_tab, insert_tab.
Qed.

Lemma madd_tab (f g : nat → nat → R) n m :
  np.madd (tab (fun i => tab (f i) m) n) (tab (fun i => tab (g i) m) n) =
  tab (fun i => tab (fun j => f i j + g i j) m) n.
Proof.
  unfold np.madd. rewrite zip_with_tab. apply tab_ext. intros i _.
  unfold np.add. by rewrite zip_with_tab.
Qed.

(** Entry [i] of [prob_prod_arr] is the product of the first [i]
    complements times the failure probability of step [i]. *)
Lemma prob_prod_arr_tab (prob_comp prob_col : list R) :
  length prob_comp = length prob_col →
  prob_prod_arr (expand_to_lower_tri_mat prob_comp) prob_col =
  tab (fun i => big_prod (fun k => nth k prob_comp 0) i * nth i prob_col 0)
      (length prob_col).
Proof.
  intros Hlen. unfold prob_prod_arr.
  rewrite expand_to_lower_tri_mat_tab, Hlen.
  rewrite fill_diagonal_tab, shape_square, ones_tab, triu_tab.
  rewrite fill_diagonal_tab, diag_tab, !madd_tab.
  unfold np.prod_axis1. rewrite fmap_tab. apply tab_ext. intros i Hi.
  unfold compose. rewrite prod_tab. apply big_prod_row; [done|..].
  - intros j Hj. rewrite !decide_False by lia.
    rewrite bool_decide_false, bool_decide_true by lia. ring.
  - rewrite !decide_True by done. ring.
  - intros j Hj. rewrite !decide_False by lia.
    rewrite bool_decide_true, bool_decide_false by lia. ring.
Qed.

(** Entry [i] of [sum_times] is the time elapsed before step [i]. *)
Lemma sum_times_tab (time_col : list R) :
  sum_times (expand_to_lower_tri_mat time_col) =
  tab (fun i => big_sum (fun j => nth j time_col 0) i) (length time_col).
Proof.
  unfold sum_times. rewrite expand_to_lower_tri_mat_tab, fill_diagonal_tab.
  unfold np.sum_axis1. rewrite fmap_tab. apply tab_ext. intros i Hi.
  unfold compose. rewrite sum_tab. apply big_sum_row; [lia|..].
  - intros j Hj. rewrite decide_False by lia.
    by rewrite bool_decide_true by lia.
  - intros j Hj. destruct (decide (j = i)); [done|].
    by rewrite bool_decide_false by lia.
Qed.
End EvaluatorFacts.

(** ** Expected time: the matrix computation and the closed form *)

Section ClosedForm.
Local Open Scope R_scope.

Lemma nth_rsub (c : R) (a : list R) (k : nat) :
  (k < length a)%nat → nth k (np.rsub c a) 0 = c - nth k a 0.
Proof.
  intros Hk. unfold np.rsub. rewrite !nth_lookup, list_lookup_fmap.
  destruct (lookup_lt_is_Some_2 a k Hk) as [x ->]. reflexivity.
Qed.

Lemma length_rsub (c : R) (a : list R) : length (np.rsub c a) = length a.
Proof. unfold np.rsub. by rewrite length_fmap. Qed.

(** The probabilities of failing on step 0, ..., n-1 and of succeeding
    add up to 1. *)
Lemma big_prod_telescope (P Q : nat → R) (n : nat) :
  (∀ k, (k < n)%nat → Q k = 1 - P k) →
  big_prod Q n + big_sum (fun i => big_prod Q i * P i) n = 1.
Proof.
  induction n as [|n IH]; intros HQ; cbn; [ring|].
  rewrite (HQ n) by lia.
  replace (big_prod Q n * (1 - P n)
           + (big_sum (fun i => big_prod Q i * P i) n + big_prod Q n * P n))
    with (big_prod Q n + big_sum (fun i => big_prod Q i * P i) n) by ring.
  apply IH. intros k Hk. apply HQ. lia.
Qed.

Lemma expected_time_eq_tab (P T Q : nat → R) (n : nat) :
  expected_time_eq (tab (fun i => big_prod Q i * P i) n)
                   (tab (fun i => big_sum T i) n)
                   (tab T n) (tab P n) (tab Q n) =
  big_prod Q n * big_sum T n
  + big_sum (fun i => (big_prod Q i * P i)
                      * (big_sum T i - T i / P i + T i / ln (1 / (1 - P i)) + T i)) n.
Proof.
  unfold expected_time_eq, np.add, np.sub, np.div, np.mul, np.log,
    np.rdiv, np.rsub.
  rewrite !fmap_tab, !zip_with_tab, prod_tab, !sum_tab. reflexivity.
Qed.

Lemma expected_time_eq_closed_form (prob_col time_col : list R) :
  length time_col = length prob_col →
  let prob_comp := np.rsub 1 prob_col in
  expected_time_eq (prob_prod_arr (expand_to_lower_tri_mat prob_comp) prob_col)
                   (sum_times (expand_to_lower_tri_mat time_col))
                   time_col prob_col prob_comp =
  closed_form prob_col time_col.
Proof.
  intros Hlen prob_comp.
  rewrite prob_prod_arr_tab by apply length_rsub.
  rewrite sum_times_tab, Hlen.
  set (n := length prob_col).
  set (P := fun i => nth i prob_col 0).
  set (T := fun i => nth i time_col 0).
  set (Q := fun i => nth i prob_comp 0).
  assert (HP : prob_col = tab P n) by apply tab_nth.
  assert (HT : time_col = tab T n) by (unfold n; rewrite <- Hlen; apply tab_nth).
  assert (HQ : prob_comp = tab Q n).
  { unfold n. rewrite <- (length_rsub 1 prob_col). apply tab_nth. }
  assert (Hgen : ∀ t p c, t = tab T n → p = tab P n → c = tab Q n →
    expected_time_eq (tab (fun i => big_prod Q i * P i) n)
                     (tab (fun i => big_sum T i) n) t p c =
    big_prod Q n * big_sum T n
    + big_sum (fun i => (big_prod Q i * P i)
                        * (big_sum T i - T i / P i + T i / ln (1 / (1 - P i)) + T i)) n).
  { intros t p c -> -> ->. apply expected_time_eq_tab. }
  etrans; [exact (Hgen _ _ _ HT HP HQ)|].
  assert (HQP : ∀ k, (k < n)%nat → Q k = 1 - P k).
  { intros k Hk. by apply nth_rsub. }
  unfold closed_form. change (length prob_col) with n. f_equal.
  - f_equal. by apply big_prod_ext.
  - apply big_sum_ext. intros i Hi.
    rewrite (big_prod_ext Q (fun k => 1 - P k)) by (intros; apply HQP; lia).
    unfold P, T. ring.
Qed.

Lemma series_loc_reindex (series : list R) (perm : list nat) :
  (∀ index, index ∈ perm → (1 ≤ index ≤ length series)%nat) →
  series_loc series perm = Ok (reindex series perm).
Proof.
  intros Hrange. apply mapM_result_ok. intros index Hin.
  destruct (Hrange index Hin) as [H1 Hn].
  destruct index as [|k]; [lia|].
  replace (S k - 1)%nat with k by lia. rewrite nth_lookup.
  destruct (lookup_lt_is_Some_2 series k) as [x ->]; [lia|]. reflexivity.
Qed.

Lemma length_reindex (col : list R) (perm : list nat) :
  length (reindex col perm) = length perm.
Proof. unfold reindex. by rewrite length_fmap. Qed.

Lemma expected_time_closed_form (df : DataFrame) (perm : list nat) :
  (∀ index, index ∈ perm → (1 ≤ index ≤ length df)%nat) →
  expected_time df perm =
  Ok (closed_form (reindex (Probability <$> df) perm)
                  (reindex (Time <$> df) perm)).
Proof.
  intros Hrange. unfold expected_time.
  rewrite !series_loc_reindex by (by rewrite length_fmap). cbn.
  f_equal. apply expected_time_eq_closed_form. by rewrite !length_reindex.
Qed.
End ClosedForm.

(** C10. The per-step failure probabilities computed by [prob_prod_arr]
    and the success probability [np.prod(prob_comp)] used by
    [expected_time_eq] add up to 1, for every probability vector (in
    particular for every vector with components strictly between 0 and
    1): the weights of the law of total expectation are exhaustive. *)
Theorem prob_prod_arr_exhaustive (prob_col : list R) :
  let prob_comp := np.rsub 1%R prob_col in
  (np.prod prob_comp
   + np.sum (prob_prod_arr (expand_to_lower_tri_mat prob_comp) prob_col))%R = 1%R.
Proof.
  intros prob_comp.
  assert (Hlen : length prob_comp = length prob_col) by apply length_rsub.
  rewrite prob_prod_arr_tab by done.
  rewrite sum_tab.
  rewrite (tab_nth prob_comp 0%R) at 1. rewrite prod_tab, Hlen.
  apply big_prod_telescope. intros k Hk. by apply nth_rsub.
Qed.

(** C1. For every ordering of the tasks of a table whose failure
    probabilities lie strictly between 0 and 1 and whose durations are
    positive, the value [get_expected_times] appends for the ordering
    is the closed form of section 4.3 evaluated on the probabilities
    and durations re-indexed in the ordering's sequence: the
    triangular-matrix computation equals the left-to-right closed
    form. *)
Theorem get_expected_times_closed_form (df : DataFrame) (perms : list (list nat)) :
  (∀ row, row ∈ df → (0 < Probability row < 1)%R ∧ (0 < Time row)%R) →
  (∀ perm index, perm ∈ perms → index ∈ perm → 1 ≤ index ≤ length df) →
  get_expected_times perms df =
  Ok ((fun perm => closed_form (reindex (Probability <$> df) perm)
                               (reindex (Time <$> df) perm)) <$> perms).
Proof.
  intros _ Hrange. unfold get_expected_times.
  apply mapM_result_ok. intros perm Hperm.
  apply expected_time_closed_form. intros index Hin. by apply (Hrange perm).
Qed.

(** ** Dependency validator *)

Section ValidatorFacts.
Implicit Types (perm prev_ind : list nat) (deps : list (list cell)).

Lemma deps_row_declared deps index :
  1 ≤ index ≤ length deps → deps_row deps index = Ok (declared_deps deps index).
Proof.
  intros [H1 Hn]. destruct index as [|k]; [lia|].
  unfold deps_row, declared_deps. replace (S k - 1) with k by lia.
  destruct (lookup_lt_is_Some_2 deps k) as [dep ->]; [lia|]. reflexivity.
Qed.

Lemma elem_in_true elem prev_ind :
  elem_in elem prev_ind = true ↔ ∃ i, i ∈ prev_ind ∧ elem = Num (Z.of_nat i).
Proof.
  destruct elem as [z|s]; cbn.
  - rewrite existsb_exists. split.
    + intros (i & Hin & Heq). exists i. split; [by apply list_elem_of_In|].
      f_equal. by apply Z.eqb_eq.
    + intros (i & Hin & [= ->]). exists i. split; [by apply list_elem_of_In|].
      apply Z.eqb_refl.
  - split; [discriminate|]. intros (i & _ & [=]).
Qed.

Lemma check_perm_loop_spec perm : ∀ prev_ind deps,
  (∀ index, index ∈ perm → 1 ≤ index ≤ length deps) →
  (check_perm_loop prev_ind perm deps = Ok true ∧ loop_accepts prev_ind perm deps)
  ∨ (check_perm_loop prev_ind perm deps = Ok false
     ∧ ¬ loop_accepts prev_ind perm deps).
Proof.
  induction perm as [|index perm IH]; intros prev_ind deps Hrange.
  - left. split; [reflexivity|]. intros k index elem [=].
  - cbn [check_perm_loop].
    rewrite deps_row_declared by (apply Hrange, list_elem_of_here). cbn.
    destruct (forallb _ _) eqn:Hall; cbn.
    + destruct (IH (prev_ind ++ [index]) deps) as [[Hok Hacc]|[Hok Hrej]].
      { intros i Hi. apply Hrange. by apply list_elem_of_further. }
      * left. split; [done|]. intros [|k] i elem; cbn.
        -- intros [= <-] Helem. rewrite forallb_forall in Hall.
           rewrite take_0. by apply Hall, list_elem_of_In.
        -- intros Hk Helem. specialize (Hacc k i elem Hk Helem).
           by rewrite <- app_assoc in Hacc.
      * right. split; [done|]. intros Hacc. apply Hrej.
        intros k i elem Hk Helem. rewrite <- app_assoc.
        apply (Hacc (S k) i elem); done.
    + right. split; [done|]. intros Hacc.
      assert (forallb (fun elem => elem_in elem (prev_ind ++ [index]))
                (declared_deps deps index) = true) as Hall'; [|congruence].
      apply forallb_forall. intros elem Helem.
      specialize (Hacc 0 index elem eq_refl). cbn in Hacc. rewrite take_0 in Hacc.
      by apply Hacc, list_elem_of_In.
Qed.

(** With no self-dependency the inclusive test of the loop is the
    strict test of the specification. *)
Lemma loop_accepts_feasible perm deps :
  no_self_dependency perm deps →
  loop_accepts [0] perm deps ↔ feasible perm deps.
Proof.
  intros Hself. split.
  - intros Hacc k index elem Hk Helem.
    pose proof (Hacc k index elem Hk Helem) as Hin.
    apply elem_in_true in Hin as (i & Hin & ->).
    change ([0] ++ take (S k) perm) with (0 :: take (S k) perm) in Hin.
    apply elem_of_cons in Hin as [->|Hin]; [by left|right].
    apply list_elem_of_lookup in Hin as (j & Hj).
    apply lookup_take_Some in Hj as [Hj Hlt].
    destruct (decide (j = k)) as [->|Hne].
    + assert (i = index) as -> by congruence.
      exfalso. apply (Hself index); [|done].
      apply list_elem_of_lookup. eauto.
    + exists j, i. split; [lia|done].
  - intros Hfeas k index elem Hk Helem. apply elem_in_true.
    destruct (Hfeas k index elem Hk Helem) as [->|(j & i & Hj & Hi & ->)].
    + exists 0. split; [apply list_elem_of_here|reflexivity].
    + exists i. split; [|reflexivity].
      apply list_elem_of_further, list_elem_of_lookup. exists j.
      apply lookup_take_Some. split; [done|lia].
Qed.

(** On a table where no task lists itself, [check_perm] decides
    feasibility. *)
Lemma check_perm_decides_feasible perm deps :
  (∀ index, index ∈ perm → 1 ≤ index ≤ length deps) →
  no_self_dependency perm deps →
  (check_perm perm deps = Ok true ∧ feasible perm deps)
  ∨ (check_perm perm deps = Ok false ∧ ¬ feasible perm deps).
Proof.
  intros Hrange Hself. unfold check_perm.
  destruct (check_perm_loop_spec perm [0] deps Hrange) as [[Hok H]|[Hok H]].
  - left. split; [done|]. by apply loop_accepts_feasible.
  - right. split; [done|]. intros Hfeas. apply H. by apply loop_accepts_feasible.
Qed.

(** A rejected ordering is never feasible, self-dependency or not. *)
Lemma check_perm_rejects_infeasible perm deps :
  (∀ index, index ∈ perm → 1 ≤ index ≤ length deps) →
  check_perm perm deps = Ok false → ¬ feasible perm deps.
Proof.
  intros Hrange Hrej Hfeas. unfold check_perm in Hrej.
  destruct (check_perm_loop_spec perm [0] deps Hrange) as [[Hok H]|[Hok H]];
    [congruence|].
  apply H. intros k index elem Hk Helem. apply elem_in_true.
  destruct (Hfeas k index elem Hk Helem) as [->|(j & i & Hj & Hi & ->)].
  - exists 0. split; [apply list_elem_of_here|reflexivity].
  - exists i. split; [|reflexivity].
    apply list_elem_of_further, list_elem_of_lookup. exists j.
    apply lookup_take_Some. split; [done|lia].
Qed.
End ValidatorFacts.

(** ** Permutation enumerator *)

Lemma length_bind_const {A B} (f : A → list B) (l : list A) (c : nat) :
  (∀ x, x ∈ l → length (f x) = c) → length (l ≫= f) = length l * c.
Proof.
  induction l as [|x l IH]; intros Hf; [reflexivity|].
  rewrite bind_cons, length_app. cbn.
  rewrite (Hf x) by apply list_elem_of_here.
  rewrite IH; [lia|]. intros y Hy. apply Hf. by apply list_elem_of_further.
Qed.

Section EnumeratorFacts.
Context {A : Type}.
Implicit Types (l perm : list A).

Lemma length_selections l : length (selections l) = length l.
Proof.
  induction l as [|x l IH]; [reflexivity|].
  cbn. by rewrite length_fmap, IH.
Qed.

Lemma selections_elem l (s : A * list A) :
  s ∈ selections l →
  S (length (snd s)) = length l ∧ fst s ∈ l ∧ ∀ y, y ∈ snd s → y ∈ l.
Proof.
  revert s. induction l as [|x l IH]; intros s Hs; cbn in Hs.
  - by apply elem_of_nil in Hs.
  - apply elem_of_cons in Hs as [->|Hs]; cbn.
    + split; [done|]. split; [apply list_elem_of_here|].
      intros y Hy. by apply list_elem_of_further.
    + apply list_elem_of_fmap in Hs as (s' & -> & Hs'). cbn.
      destruct (IH s' Hs') as (Hlen & Hfst & Hsnd).
      split; [lia|]. split; [by apply list_elem_of_further|].
      intros y Hy. apply elem_of_cons in Hy as [->|Hy].
      * apply list_elem_of_here.
      * by apply list_elem_of_further, Hsnd.
Qed.

Lemma permutations_fuel_length n : ∀ l,
  length l = n → length (permutations_fuel n l) = fact n.
Proof.
  induction n as [|n IH]; intros l Hl; [reflexivity|].
  destruct l as [|x l]; [discriminate|].
  cbn [permutations_fuel].
  rewrite (length_bind_const _ _ (fact n)).
  - rewrite length_selections, Hl. reflexivity.
  - intros s Hs. rewrite length_fmap. apply IH.
    apply selections_elem in Hs as (Hlen & _). lia.
Qed.

Lemma permutations_fuel_elem n : ∀ l perm,
  length l = n → perm ∈ permutations_fuel n l →
  length perm = n ∧ ∀ x, x ∈ perm → x ∈ l.
Proof.
  induction n as [|n IH]; intros l perm Hl Hperm.
  - apply list_elem_of_singleton in Hperm as ->.
    split; [reflexivity|]. intros x Hx. by apply elem_of_nil in Hx.
  - destruct l as [|x l]; [discriminate|].
    cbn [permutations_fuel] in Hperm.
    apply list_elem_of_bind in Hperm as (s & Hperm & Hs).
    apply list_elem_of_fmap in Hperm as (perm' & -> & Hperm').
    apply selections_elem in Hs as (Hlen & Hfst & Hsnd).
    destruct (IH (snd s) perm') as (Hlen' & Hsub); [lia|done|].
    split; [cbn; lia|]. intros y Hy.
    apply elem_of_cons in Hy as [->|Hy]; [done|]. by apply Hsnd, Hsub.
Qed.
End EnumeratorFacts.

(** [gen_perms] lists [n!] orderings for a table of [n] rows, whatever
    [n] is. *)
Lemma gen_perms_length (df : DataFrame) :
  length (gen_perms df) = fact (length df).
Proof.
  unfold gen_perms, permutations. rewrite length_seq.
  apply permutations_fuel_length. by rewrite length_seq.
Qed.

(** Every ordering lists [n] row numbers between 1 and [n]. *)
Lemma gen_perms_elem (df : DataFrame) (perm : list nat) :
  perm ∈ gen_perms df →
  length perm = length df ∧ ∀ index, index ∈ perm → 1 ≤ index ≤ length df.
Proof.
  unfold gen_perms, permutations. rewrite length_seq. intros Hperm.
  apply permutations_fuel_elem in Hperm as (Hlen & Hsub);
    [|by rewrite length_seq].
  split; [done|]. intros index Hin. apply Hsub, elem_of_seq in Hin. lia.
Qed.

Lemma gen_perms_range (df : DataFrame) (perm : list nat) (index : nat) :
  perm ∈ gen_perms df → index ∈ perm → 1 ≤ index ≤ length df.
Proof. intros Hperm. by apply (gen_perms_elem df perm Hperm). Qed.

Lemma gen_perms_nonempty (df : DataFrame) : gen_perms df ≠ [].
Proof.
  intros Heq. apply (f_equal length) in Heq. rewrite gen_perms_length in Heq.
  exact (fact_neq_0 _ Heq).
Qed.

Lemma validate_perms_filter (perms : list (list nat)) (deps : list (list cell)) :
  (∀ perm index, perm ∈ perms → index ∈ perm → 1 ≤ index ≤ length deps) →
  validate_perms perms deps =
  Ok (filter (fun perm => check_perm perm deps = Ok true) perms).
Proof.
  induction perms as [|perm perms IH]; intros Hrange; [reflexivity|].
  cbn [validate_perms]. rewrite IH.
  2:{ intros p i Hp. apply Hrange. by apply list_elem_of_further. }
  rewrite filter_cons.
  destruct (check_perm_loop_spec perm [0] deps) as [[Hok _]|[Hok _]].
  { intros i. apply Hrange, list_elem_of_here. }
  - unfold check_perm. rewrite Hok. cbn. by rewrite decide_True.
  - unfold check_perm. rewrite Hok. cbn. by rewrite decide_False.
Qed.

Lemma filter_none_accepted {A} (P : A → Prop) `{∀ x, Decision (P x)} (l : list A) :
  (∀ x, x ∈ l → ¬ P x) → filter P l = [].
Proof.
  induction l as [|x l IH]; intros HP; [reflexivity|].
  rewrite filter_cons, decide_False by apply HP, list_elem_of_here.
  apply IH. intros y Hy. by apply HP, list_elem_of_further.
Qed.

(** ** Optimal-order selector *)

Section SelectorFacts.
Local Open Scope R_scope.

Lemma argmin_from_spec (a : list R) : ∀ (pre : list R) best_i best,
  first_minimum pre best_i best →
  ∃ m, first_minimum (pre ++ a) (np.argmin_from best_i best (length pre) a) m.
Proof.
  induction a as [|x a IH]; intros pre best_i best (Hbest & Hle & Hlt).
  - exists best. rewrite app_nil_r. by repeat split.
  - cbn [np.argmin_from]. rewrite (cons_middle x pre a), app_assoc.
    replace (S (length pre)) with (length (pre ++ [x]))
      by (rewrite length_app; cbn; lia).
    destruct (Rlt_dec x best) as [Hx|Hx]; apply IH.
    + split; [|split].
      * by rewrite lookup_app_r, Nat.sub_diag.
      * intros j s Hj. apply lookup_app_Some in Hj as [Hj|[_ Hj]].
        -- specialize (Hle j s Hj). lra.
        -- apply list_lookup_singleton_Some in Hj as [_ <-]. lra.
      * intros j s Hjk Hj. rewrite lookup_app_l in Hj by done.
        specialize (Hle j s Hj). lra.
    + split; [|split].
      * apply lookup_app_l_Some. done.
      * intros j s Hj. apply lookup_app_Some in Hj as [Hj|[_ Hj]].
        -- by apply (Hle j).
        -- apply list_lookup_singleton_Some in Hj as [_ <-]. lra.
      * intros j s Hjk Hj. apply lookup_app_Some in Hj as [Hj|[Hge _]].
        -- by apply (Hlt j).
        -- apply lookup_lt_Some in Hbest. lia.
Qed.

(** [np.argmin] of a non-empty array is the position of the first
    occurrence of its least value. *)
Lemma argmin_first_minimum (a : list R) :
  a ≠ [] → ∃ k m, np.argmin a = Ok k ∧ first_minimum a k m.
Proof.
  destruct a as [|x a]; [done|]. intros _.
  destruct (argmin_from_spec a [x] 0%nat x) as [m Hm].
  - split; [reflexivity|]. split.
    + intros [|j] s; cbn; [intros [= <-]; lra|intros [=]].
    + intros j s Hj. lia.
  - exists (np.argmin_from 0 x 1 a), m. split; [reflexivity|]. exact Hm.
Qed.

Lemma argmin_empty :
  np.argmin [] = Raise (ValueError "attempt to get argmin of an empty sequence").
Proof. reflexivity. Qed.

(** [np.sort] returns the values of its argument in ascending order. *)
Lemma insert_sorted_Permutation (x : R) (a : list R) :
  np.insert_sorted x a ≡ₚ x :: a.
Proof.
  induction a as [|y a IH]; [reflexivity|]. cbn.
  destruct (Rle_dec x y); [reflexivity|]. rewrite IH. apply Permutation_swap.
Qed.

Lemma sort_Permutation (a : list R) : np.sort a ≡ₚ a.
Proof.
  induction a as [|x a IH]; [reflexivity|].
  change (np.sort (x :: a)) with (np.insert_sorted x (np.sort a)).
  by rewrite insert_sorted_Permutation, IH.
Qed.

Lemma insert_sorted_Sorted (x : R) (a : list R) :
  Sorted Rle a → Sorted Rle (np.insert_sorted x a).
Proof.
  induction 1 as [|y a Ha IH Hhd]; cbn; [by repeat constructor|].
  destruct (Rle_dec x y) as [Hxy|Hxy].
  - constructor; [by constructor|by constructor].
  - constructor; [done|].
    destruct Hhd as [|z a Hyz]; cbn; [constructor; lra|].
    destruct (Rle_dec x z); constructor; lra.
Qed.

Lemma sort_Sorted (a : list R) : Sorted Rle (np.sort a).
Proof.
  induction a as [|x a IH]; [constructor|].
  change (np.sort (x :: a)) with (np.insert_sorted x (np.sort a)).
  by apply insert_sorted_Sorted.
Qed.

(** The head of [np.sort a] is a least value of [a]. *)
Lemma sort_head_min (a : list R) :
  a ≠ [] →
  ∃ m, head (np.sort a) = Some m ∧ m ∈ a ∧ ∀ s, s ∈ a → m <= s.
Proof.
  induction a as [|x a IH]; [done|]. intros _.
  destruct a as [|y a].
  - exists x. split; [reflexivity|]. split; [apply list_elem_of_here|].
    intros s Hs. apply list_elem_of_singleton in Hs as ->. lra.
  - destruct IH as (m & Hhead & Hin & Hmin); [done|].
    change (np.sort (x :: y :: a)) with (np.insert_sorted x (np.sort (y :: a))).
    destruct (np.sort (y :: a)) as [|m' rest]; [discriminate|].
    cbn in Hhead. injection Hhead as ->. cbn [np.insert_sorted].
    destruct (Rle_dec x m) as [Hx|Hx]; cbn.
    + exists x. split; [reflexivity|]. split; [apply list_elem_of_here|].
      intros s Hs. apply elem_of_cons in Hs as [->|Hs]; [lra|].
      specialize (Hmin s Hs). lra.
    + exists m. split; [reflexivity|]. split; [by apply list_elem_of_further|].
      intros s Hs. apply elem_of_cons in Hs as [->|Hs]; [lra|].
      by apply Hmin.
Qed.

(** [sorted_sums[0]] is the value at position [np.argmin(sums)]. *)
Lemma sort_head_argmin (a : list R) (k : nat) (m : R) :
  first_minimum a k m → list_index (np.sort a) 0 = Ok m.
Proof.
  intros (Hk & Hle & _).
  destruct (sort_head_min a) as (m' & Hhead & Hin & Hmin).
  { intros ->. discriminate. }
  unfold list_index. rewrite <- head_lookup, Hhead. f_equal.
  apply list_elem_of_lookup in Hin as (j & Hj).
  specialize (Hle j m' Hj).
  specialize (Hmin m (list_elem_of_lookup_2 _ _ _ Hk)). lra.
Qed.
End SelectorFacts.

(** ** Failure-time simulator *)

Section SimulatorFacts.
Local Open Scope R_scope.
Variable draw : nat → R → nat → R.

Lemma length_sim call rate n : length (sim draw call rate n) = n.
Proof. unfold sim. by rewrite length_fmap, length_seq. Qed.

Lemma sim_state_after_S (time lambdas : list R) (j : nat) :
  (j < length lambdas)%nat →
  sim_state_after draw time lambdas (S j) =
  sim_step draw time (sim_state_after draw time lambdas j) (j, nth j lambdas 0).
Proof.
  intros Hj. unfold sim_state_after.
  rewrite (take_S_r _ j (j, nth j lambdas 0)).
  - by rewrite fold_left_app.
  - rewrite list_lookup_imap, nth_lookup.
    destruct (lookup_lt_is_Some_2 lambdas j Hj) as [rate ->]. reflexivity.
Qed.

(** The loop invariant: after [j] passes the loop has recorded the
    failure times of steps 0 .. j-1, the pool holds the trials still
    alive and the clock shows the time elapsed. *)
Lemma sim_state_after_spec (time lambdas : list R) (j : nat) :
  (j ≤ length lambdas)%nat →
  totals (sim_state_after draw time lambdas j)
    = tab (spec_recorded draw time lambdas) j
  ∧ success_count (sim_state_after draw time lambdas j)
    = spec_alive draw time lambdas j
  ∧ prior_task_time (sim_state_after draw time lambdas j)
    = spec_elapsed time j.
Proof.
  induction j as [|j IH]; intros Hj.
  - unfold sim_state_after. rewrite take_0. by repeat split.
  - destruct IH as (Htot & Hcount & Hprior); [lia|].
    rewrite sim_state_after_S by lia. unfold sim_step.
    cbn [totals success_count prior_task_time fst snd].
    rewrite Htot, Hcount, Hprior, length_sim. split; [|split].
    + rewrite tab_S. f_equal. f_equal.
      unfold np.addc, spec_recorded, filter_leq, sim, spec_failed.
      apply list_fmap_ext. intros _ x _. apply Rplus_comm.
    + reflexivity.
    + reflexivity.
Qed.

Lemma take_idx_nth (a : list R) (index : list nat) :
  (∀ i, i ∈ index → (i < length a)%nat) →
  np.take_idx a index = Ok ((fun i => nth i a 0) <$> index).
Proof.
  intros Hrange. apply mapM_result_ok. intros i Hi. rewrite nth_lookup.
  destruct (lookup_lt_is_Some_2 a i (Hrange i Hi)) as [x ->]. reflexivity.
Qed.

Lemma length_get_lambdas (time prob : list R) :
  length time = length prob → length (get_lambdas time prob) = length time.
Proof.
  intros Hlen. unfold get_lambdas, np.mul, np.rdiv, np.log, np.rsub.
  rewrite length_zip_with, !length_fmap. lia.
Qed.
End SimulatorFacts.

(** ** Names and row numbers *)

Lemma mapM_result_Forall {A B} (f : A → result B) (P : B → Prop) (l : list A) :
  (∀ x, x ∈ l → ∃ y, f x = Ok y ∧ P y) →
  ∃ k, mapM f l = Ok k ∧ length k = length l ∧ Forall P k.
Proof.
  induction l as [|x l IH]; intros Hf.
  - exists []. by repeat split.
  - destruct (Hf x) as (y & Hy & HP); [apply list_elem_of_here|].
    destruct IH as (k & Hk & Hlen & HPk).
    { intros z Hz. apply Hf. by apply list_elem_of_further. }
    exists (y :: k). cbn. rewrite Hy. cbn. rewrite Hk. cbn.
    split; [done|]. split; [by rewrite Hlen|by constructor].
Qed.

Section DictFacts.
Context {K V : Type} `{Countable K}.

Lemma dict_of_pairs_snoc (pairs : list (K * V)) (k : K) (v : V) :
  dict_of_pairs (pairs ++ [(k, v)]) = <[k:=v]> (dict_of_pairs pairs).
Proof. unfold dict_of_pairs. by rewrite fold_left_app. Qed.
End DictFacts.

(** [dict(zip(names, 1..n))] maps a name to the number of the last row
    that bears it. *)
Lemma names_dict_lookup (names : list string) (s : string) :
  match dict_of_pairs (zip names (seq 1 (length names))) !! s with
  | Some row => ∃ r, row = S r ∧ names !! r = Some s
                     ∧ ∀ r', r < r' → names !! r' ≠ Some s
  | None => s ∉ names
  end.
Proof.
  induction names as [|x names IH] using rev_ind.
  - cbn. unfold dict_of_pairs. cbn. rewrite lookup_empty. apply not_elem_of_nil.
  - rewrite length_app. cbn [length]. rewrite Nat.add_1_r, seq_S.
    rewrite zip_with_app by (by rewrite length_seq). cbn [zip_with].
    rewrite dict_of_pairs_snoc, lookup_insert.
    destruct (decide (x = s)) as [->|Hne].
    + exists (length names). split; [reflexivity|]. split.
      * by rewrite lookup_app_r, Nat.sub_diag.
      * intros r' Hr' Hlook. apply lookup_lt_Some in Hlook.
        rewrite length_app in Hlook. cbn in Hlook. lia.
    + destruct (dict_of_pairs _ !! s) as [row|].
      * destruct IH as (r & -> & Hr & Hlast). exists r.
        split; [reflexivity|]. split; [by apply lookup_app_l_Some|].
        intros r' Hr' Hlook. apply lookup_snoc_Some in Hlook as [[_ Hl]|[_ Hl]].
        -- by apply (Hlast r').
        -- done.
      * apply not_elem_of_app. split; [done|].
        intros Hs. apply list_elem_of_singleton in Hs. done.
Qed.

(** [dict(zip(1..n, names))] maps a row number to the name in that
    row. *)
Lemma rows_dict_lookup (names : list string) (row : nat) :
  dict_of_pairs (zip (seq 1 (length names)) names) !! row =
  match row with O => None | S r => names !! r end.
Proof.
  induction names as [|x names IH] using rev_ind.
  - unfold dict_of_pairs. cbn. rewrite lookup_empty. by destruct row.
  - rewrite length_app. cbn [length]. rewrite Nat.add_1_r, seq_S.
    rewrite zip_with_app by (by rewrite length_seq). cbn [zip_with].
    rewrite dict_of_pairs_snoc, lookup_insert.
    destruct (decide (1 + length names = row)) as [<-|Hne].
    + cbn. by rewrite lookup_app_r, Nat.sub_diag.
    + rewrite IH. destruct row as [|r]; [done|].
      destruct (decide (r < length names)) as [Hr|Hr].
      * by rewrite lookup_app_l.
      * rewrite !lookup_ge_None_2; [done|rewrite length_app; cbn; lia|lia].
Qed.

Lemma present_task_names_ok (arr : list nat) (df : DataFrame) :
  (∀ row, row ∈ arr → 1 ≤ row ≤ length df) →
  ∃ names, present_task_names arr df = Ok names
           ∧ length names = length arr
           ∧ Forall (fun name => name ∈ Task <$> df) names.
Proof.
  intros Hrange. apply mapM_result_Forall. intros row Hrow.
  destruct (Hrange row Hrow) as [H1 Hn].
  unfold row_to_name_dict.
  rewrite <- (length_fmap Task df), rows_dict_lookup.
  destruct row as [|r]; [lia|].
  destruct (lookup_lt_is_Some_2 (Task <$> df) r) as [name Hname].
  { rewrite length_fmap. lia. }
  rewrite Hname. exists name. split; [done|].
  apply list_elem_of_lookup. eauto.
Qed.

Lemma rows_of_names_ok (names : list string) (df : DataFrame) :
  Forall (fun name => name ∈ Task <$> df) names →
  ∃ index, rows_of_names names df = Ok index
           ∧ length index = length names
           ∧ Forall (fun i => i < length df) index.
Proof.
  intros Hnames. apply mapM_result_Forall. intros name Hname.
  rewrite Forall_forall in Hnames. specialize (Hnames name Hname).
  unfold name_to_row_dict. rewrite <- (length_fmap Task df).
  pose proof (names_dict_lookup (Task <$> df) name) as Hdict.
  destruct (dict_of_pairs _ !! name) as [row|]; [|done].
  destruct Hdict as (r & -> & Hr & _). exists r. split; [f_equal; lia|].
  by apply lookup_lt_Some in Hr.
Qed.

Lemma result_bind_ok {A B} (f : A → result B) (a : A) : (Ok a ≫= f) = f a.
Proof. reflexivity. Qed.

(** ** Simulation: the value returned *)

Lemma hstack_snoc (arrays : list (list R)) (a : list R) :
  np.hstack (arrays ++ [a]) = Ok (concat (arrays ++ [a])).
Proof. by destruct arrays. Qed.

Lemma simulate_failures_concat (draw : nat → R → nat → R) (df : DataFrame)
    (index : list nat) :
  index ≠ [] →
  (∀ i, i ∈ index → i < length df) →
  let prob := (fun i => nth i (Probability <$> df) 0%R) <$> index in
  let time := (fun i => nth i (Time <$> df) 0%R) <$> index in
  let lambdas := get_lambdas time prob in
  simulate_failures draw df index =
  Ok (concat (tab (spec_recorded draw time lambdas) (length index))).
Proof.
  intros Hne Hrange prob time lambdas. unfold simulate_failures.
  rewrite !take_idx_nth by (intros i Hi; rewrite length_fmap; by apply Hrange).
  rewrite !result_bind_ok. fold prob time lambdas.
  assert (Hlen : length lambdas = length index).
  { unfold lambdas. rewrite length_get_lambdas; unfold time, prob;
      by rewrite !length_fmap. }
  assert (Hall : fold_left (sim_step draw time) (imap pair lambdas) (sim_init)
                 = sim_state_after draw time lambdas (length lambdas)).
  { unfold sim_state_after. rewrite take_ge; [done|]. by rewrite length_imap. }
  rewrite Hall.
  destruct (sim_state_after_spec draw time lambdas (length lambdas)) as (-> & _);
    [done|].
  rewrite Hlen. destruct index as [|i index]; [exfalso; by apply Hne|].
  cbn [length]. rewrite tab_S. apply hstack_snoc.
Qed.

(** ** The driver *)

Lemma length_switch_from_names (df : DataFrame) :
  length (switch_from_names df) = length df.
Proof. unfold switch_from_names. by rewrite length_fmap. Qed.

Lemma main_search_ok (df : DataFrame) (valid : list (list nat)) :
  validate_perms (gen_perms df) (D <$> df) = Ok valid →
  valid ≠ [] →
  ∃ s k m,
    main_search df = Ok s
    ∧ valid_perms s = valid
    ∧ get_expected_times valid df = Ok (sums s)
    ∧ sorted_sums s = np.sort (sums s)
    ∧ first_minimum (sums s) k m
    ∧ valid !! k = Some (best_order s)
    ∧ present_task_names (best_order s) df = Ok (best_df s)
    ∧ length (best_index s) = length df
    ∧ Forall (fun i => i < length df) (best_index s).
Proof.
  intros Hval Hne.
  assert (Hsub : ∀ perm, perm ∈ valid → perm ∈ gen_perms df).
  { rewrite validate_perms_filter in Hval.
    - injection Hval as <-. intros perm Hperm.
      by apply list_elem_of_filter in Hperm as [_ ?].
    - intros perm index Hperm Hindex. rewrite length_fmap.
      by apply (gen_perms_range df perm). }
  set (score := fun perm => closed_form (reindex (Probability <$> df) perm)
                                        (reindex (Time <$> df) perm)).
  assert (Hsums : get_expected_times valid df = Ok (score <$> valid)).
  { apply mapM_result_ok. intros perm Hperm. apply expected_time_closed_form.
    intros index Hindex. apply (gen_perms_range df perm); [by apply Hsub|done]. }
  destruct (argmin_first_minimum (score <$> valid)) as (k & m & Hargmin & Hmin).
  { intros Heq. by apply fmap_nil_inv in Heq. }
  assert (∃ best, valid !! k = Some best) as [best Hbest].
  { destruct Hmin as (Hk & _). apply lookup_lt_Some in Hk.
    rewrite length_fmap in Hk. by apply lookup_lt_is_Some_2. }
  assert (Hbest_in : best ∈ gen_perms df).
  { apply Hsub, list_elem_of_lookup. eauto. }
  destruct (gen_perms_elem df best Hbest_in) as (Hbest_len & Hbest_range).
  destruct (present_task_names_ok best df Hbest_range) as (names & Hnames & Hnlen & Hnin).
  destruct (rows_of_names_ok names df Hnin) as (index & Hindex & Hilen & Hirange).
  exists {| valid_perms := valid; sums := score <$> valid;
            sorted_sums := np.sort (score <$> valid);
            best_order := best; best_df := names; best_index := index |}, k, m.
  split.
  { unfold main_search. rewrite Hval, result_bind_ok, Hsums, result_bind_ok.
    rewrite Hargmin, result_bind_ok. unfold list_index. rewrite Hbest.
    rewrite result_bind_ok, Hnames, result_bind_ok, Hindex, result_bind_ok.
    reflexivity. }
  cbn [valid_perms sums sorted_sums best_order best_df best_index].
  split; [done|]. split; [done|]. split; [done|]. split; [exact Hmin|].
  split; [done|]. split; [done|]. split; [congruence|done].
Qed.

Lemma main_search_empty (df : DataFrame) :
  validate_perms (gen_perms df) (D <$> df) = Ok [] →
  main_search df = Raise (ValueError "attempt to get argmin of an empty sequence").
Proof. intros Hval. unfold main_search. by rewrite Hval. Qed.

Lemma main_report_ok (draw : nat → R → nat → R) (df : DataFrame) (s : search)
    (k : nat) (m : R) :
  df ≠ [] →
  sorted_sums s = np.sort (sums s) →
  first_minimum (sums s) k m →
  length (best_index s) = length df →
  Forall (fun i => i < length df) (best_index s) →
  ∃ hist_vals,
    main_report draw df s =
    Ok {| optimal_order := best_df s;
          expected_time_shown := m;
          success_prob_shown := np.prod (np.rsub 1%R (Probability <$> df));
          plot_sorted_sums := np.sort (sums s);
          plot_hist_vals := hist_vals |}.
Proof.
  intros Hne Hsorted Hmin Hlen Hrange. unfold main_report.
  assert (Hindex : best_index s ≠ []).
  { intros Heq. rewrite Heq in Hlen. destruct df; [done|discriminate]. }
  assert (Hbest : simulate_best draw df (best_index s)
                  = simulate_failures draw df (best_index s)).
  { unfold simulate_best. by destruct (best_index s). }
  rewrite Hbest, simulate_failures_concat.
  - rewrite result_bind_ok, Hsorted, (sort_head_argmin _ k m Hmin).
    rewrite result_bind_ok. eauto.
  - done.
  - by apply Forall_forall.
Qed.

(** On a table without rows [main] raises the [IndexError] of the
    object-dtype index. *)
Lemma main_empty_table (draw : nat → R → nat → R) :
  snd (main draw []) = Raise IndexError.
Proof. reflexivity. Qed.

(** ** What [switch_from_names] changes *)

Lemma switch_from_names_Task (df : DataFrame) :
  Task <$> switch_from_names df = Task <$> df.
Proof. unfold switch_from_names. by rewrite <- list_fmap_compose. Qed.

Lemma switch_from_names_Time (df : DataFrame) :
  Time <$> switch_from_names df = Time <$> df.
Proof. unfold switch_from_names. by rewrite <- list_fmap_compose. Qed.

Lemma switch_from_names_Probability (df : DataFrame) :
  Probability <$> switch_from_names df = Probability <$> df.
Proof. unfold switch_from_names. by rewrite <- list_fmap_compose. Qed.

Lemma switch_from_names_D (df : DataFrame) :
  D <$> switch_from_names df
  = (fun dep => replace_cell (name_to_row_dict df) <$> dep) <$> (D <$> df).
Proof. unfold switch_from_names. by rewrite <- !list_fmap_compose. Qed.

Lemma replace_cell_rewritten (df : DataFrame) (c : cell) :
  rewritten_cell (Task <$> df) c (replace_cell (name_to_row_dict df) c).
Proof.
  destruct c as [z|s]; cbn; [constructor|].
  unfold name_to_row_dict. rewrite <- (length_fmap Task df).
  pose proof (names_dict_lookup (Task <$> df) s) as Hdict.
  destruct (dict_of_pairs _ !! s) as [row|].
  - destruct Hdict as (r & -> & Hr & Hlast). by constructor.
  - by constructor.
Qed.

Lemma replace_cell_Num (d : gmap string nat) (dep : list cell) :
  Forall (fun c => c = Num 0) dep → replace_cell d <$> dep = dep.
Proof.
  induction 1 as [|c dep -> _ IH]; [reflexivity|]. cbn. by rewrite IH.
Qed.

(** A table without prerequisites is not changed at all. *)
Lemma switch_from_names_unconstrained (df : DataFrame) :
  Forall (fun row => Forall (fun c => c = Num 0) (D row)) df →
  switch_from_names df = df.
Proof.
  intros Hdf. unfold switch_from_names.
  generalize (name_to_row_dict df). intros d.
  induction Hdf as [|row df Hrow _ IH]; [reflexivity|].
  cbn. rewrite IH, (replace_cell_Num d _ Hrow). by destruct row.
Qed.

(** ** Tables without prerequisites *)

Lemma filter_all {A} (P : A → Prop) `{∀ x, Decision (P x)} (l : list A) :
  (∀ x, x ∈ l → P x) → filter P l = l.
Proof.
  induction l as [|x l IH]; intros HP; [reflexivity|].
  rewrite filter_cons, decide_True by apply HP, list_elem_of_here.
  rewrite IH; [done|]. intros y Hy. by apply HP, list_elem_of_further.
Qed.

Lemma unconstrained_all_valid (df : DataFrame) :
  Forall (fun row => Forall (fun c => c = Num 0) (D row)) df →
  validate_perms (gen_perms df) (D <$> df) = Ok (gen_perms df).
Proof.
  intros Hdf.
  assert (Hrange : ∀ perm index, perm ∈ gen_perms df → index ∈ perm →
                                 1 ≤ index ≤ length (D <$> df)).
  { intros perm index Hperm Hindex. rewrite length_fmap.
    by apply (gen_perms_range df perm). }
  rewrite validate_perms_filter by done. f_equal.
  apply filter_all. intros perm Hperm. unfold check_perm.
  destruct (check_perm_loop_spec perm [0] (D <$> df)) as [[Hok _]|[_ Hrej]];
    [intros index; by apply Hrange|done|].
  exfalso. apply Hrej. intros k index elem _ Helem.
  unfold declared_deps in Helem. rewrite list_lookup_fmap in Helem.
  destruct (df !! (index - 1)) as [row|] eqn:Hrow; cbn in Helem.
  - rewrite Forall_forall in Hdf.
    specialize (Hdf row (list_elem_of_lookup_2 _ _ _ Hrow)).
    rewrite Forall_forall in Hdf. by rewrite (Hdf elem Helem).
  - by apply elem_of_nil in Helem.
Qed.

(** With no prerequisites [main] scores each of the [n!] orderings,
    whatever [n] is. *)
Lemma main_search_unconstrained (df : DataFrame) :
  Forall (fun row => Forall (fun c => c = Num 0) (D row)) df →
  ∃ s, main_search (switch_from_names df) = Ok s
       ∧ valid_perms s = gen_perms df
       ∧ length (sums s) = fact (length df).
Proof.
  intros Hdf. rewrite (switch_from_names_unconstrained df Hdf).
  destruct (main_search_ok df (gen_perms df)) as (s & k & m & Hs & Hv & Hsums & _).
  - by apply unconstrained_all_valid.
  - apply gen_perms_nonempty.
  - exists s. split; [done|]. split; [done|].
    unfold get_expected_times in Hsums.
    rewrite (mapM_result_length _ _ _ Hsums). apply gen_perms_length.
Qed.

(** [main] scores every feasible ordering of a table, whatever its
    probabilities and durations are. *)
Lemma main_search_scores_all (df : DataFrame) (valid : list (list nat)) :
  validate_perms (gen_perms df) (D <$> df) = Ok valid →
  valid ≠ [] →
  ∃ s, main_search df = Ok s
       ∧ valid_perms s = valid
       ∧ length (sums s) = length valid.
Proof.
  intros Hval Hne.
  destruct (main_search_ok df valid Hval Hne) as (s & k & m & Hs & Hv & Hsums & _).
  exists s. split; [done|]. split; [done|].
  unfold get_expected_times in Hsums. by rewrite (mapM_result_length _ _ _ Hsums).
Qed.

(** ** The embedding on small inputs *)

(** [itertools.permutations] emits the orderings of (1, 2, 3) in
    lexicographic order. *)
Example permutations_three :
  permutations [1; 2; 3]
  = [[1; 2; 3]; [1; 3; 2]; [2; 1; 3]; [2; 3; 1]; [3; 1; 2]; [3; 2; 1]].
Proof. reflexivity. Qed.

(** The dependency-forced scenario of section 8: only (A, B) is kept. *)
Example validate_perms_forced :
  validate_perms (gen_perms (switch_from_names df_forced))
                 (D <$> switch_from_names df_forced) = Ok [[1; 2]].
Proof. reflexivity. Qed.

(** On a sheet whose blank rows and columns all come last, [trim_df]
    removes exactly the blank ones. *)
Example trim_df_trailing_blanks :
  trim_df {| columns := 5;
             values := [ [SStr "A"; SNum 2; SNum 0.5; SNum 0; SNum 0];
                         [SStr "B"; SNum 3; SNum 0.2; SStr "A"; SNum 0];
                         [SNum 0; SNum 0; SNum 0; SNum 0; SNum 0] ] |}
  = {| columns := 4;
       values := [ [SStr "A"; SNum 2; SNum 0.5; SNum 0];
                   [SStr "B"; SNum 3; SNum 0.2; SStr "A"] ] |}.
Proof. reflexivity. Qed.

(** * The statements of the specification *)

(** C1, at the ordering (B, A) of the two-task table. *)
Lemma get_expected_times_closed_form_witness :
  get_expected_times [[2; 1]] df_two =
  Ok ((fun perm => closed_form (reindex (Probability <$> df_two) perm)
                               (reindex (Time <$> df_two) perm)) <$> [[2; 1]]).
Proof.
  apply (get_expected_times_closed_form df_two [[2; 1]]).
  - intros row Hrow. unfold df_two in Hrow.
    apply elem_of_cons in Hrow as [->|Hrow].
    { cbn. split; lra. }
    apply list_elem_of_singleton in Hrow as ->. cbn. split; lra.
  - intros perm index Hperm Hindex.
    apply list_elem_of_singleton in Hperm as ->.
    apply elem_of_cons in Hindex as [->|Hindex]; [cbn; lia|].
    apply list_elem_of_singleton in Hindex as ->. cbn. lia.
Defined.

(** C2. [check_perm] appends the current task to [prev_ind] before it
    looks at the task's dependencies, so a task that names itself as a
    prerequisite passes: on the table where A lists A, [validate_perms]
    keeps both orderings although neither is feasible (the dependency
    of A is never placed strictly before A). *)
Theorem check_perm_accepts_self_dependency :
  let deps := D <$> switch_from_names df_self in
  deps = [[Num 1]; [Num 0]]
  ∧ check_perm [1; 2] deps = Ok true
  ∧ validate_perms (gen_perms df_self) deps = Ok [[1; 2]; [2; 1]]
  ∧ ¬ feasible [1; 2] deps
  ∧ ¬ feasible [2; 1] deps.
Proof.
  assert (Hdeps : D <$> switch_from_names df_self = [[Num 1]; [Num 0]])
    by (vm_compute; reflexivity).
  cbv zeta. rewrite Hdeps.
  split; [reflexivity|]. split; [reflexivity|]. split; [reflexivity|].
  split.
  - intros Hfeas.
    destruct (Hfeas 0 1 (Num 1) eq_refl (list_elem_of_here _ _))
      as [[=]|(j & i & Hj & _)].
    lia.
  - intros Hfeas.
    destruct (Hfeas 1 1 (Num 1) eq_refl (list_elem_of_here _ _))
      as [[=]|(j & i & Hj & Hi & Heq)].
    assert (j = 0) as -> by lia. cbn in Hi. injection Hi as <-. discriminate.
Qed.

(** C3. On a table of at least one task whose feasible set is not
    empty, [main] returns a report; the ordering it selects is a
    feasible ordering whose expected time is at most that of every
    feasible ordering and strictly less than that of every feasible
    ordering enumerated before it (the first minimizer in enumeration
    order); the time it reports, [sorted_sums[0]], the head of the
    sorted list of all the expected times, is the expected time of the
    selected ordering. *)
Theorem main_selects_first_minimizer (draw : nat → R → nat → R) (df : DataFrame)
    (valid : list (list nat)) :
  let df' := switch_from_names df in
  df ≠ [] →
  validate_perms (gen_perms df') (D <$> df') = Ok valid →
  valid ≠ [] →
  ∃ s r k,
    main_search df' = Ok s
    ∧ snd (main draw df) = Ok r
    ∧ valid_perms s = valid
    ∧ valid !! k = Some (best_order s)
    ∧ present_task_names (best_order s) df' = Ok (optimal_order r)
    ∧ expected_time df' (best_order s) = Ok (expected_time_shown r)
    ∧ (∀ perm t, perm ∈ valid → expected_time df' perm = Ok t →
                 (expected_time_shown r <= t)%R)
    ∧ (∀ j perm t, j < k → valid !! j = Some perm →
                   expected_time df' perm = Ok t →
                   (expected_time_shown r < t)%R)
    ∧ plot_sorted_sums r = np.sort (sums s)
    ∧ head (plot_sorted_sums r) = Some (expected_time_shown r).
Proof.
  intros df' Hdf Hval Hne.
  destruct (main_search_ok df' valid Hval Hne)
    as (s & k & m & Hs & Hv & Hsums & Hsorted & Hmin & Hbest & Hnames & Hlen & Hrange).
  assert (Hdf' : df' ≠ []).
  { intros Heq. apply (f_equal length) in Heq. unfold df' in Heq.
    rewrite length_switch_from_names in Heq. by destruct df. }
  destruct (main_report_ok draw df' s k m Hdf' Hsorted Hmin Hlen Hrange)
    as (hist_vals & Hreport).
  eexists s, _, k. split; [done|]. split.
  { unfold main. cbn [snd]. fold df'. rewrite Hs, result_bind_ok. exact Hreport. }
  cbn [optimal_order expected_time_shown plot_sorted_sums].
  destruct Hmin as (Hk & Hle & Hlt).
  unfold get_expected_times in Hsums.
  split; [done|]. split; [done|]. split; [done|]. split.
  { destruct (mapM_result_lookup _ _ _ _ _ Hsums Hbest) as (y & Hy & Hexp).
    congruence. }
  split.
  { intros perm t Hperm Ht. apply list_elem_of_lookup in Hperm as (j & Hj).
    destruct (mapM_result_lookup _ _ _ _ _ Hsums Hj) as (y & Hy & Hexp).
    apply (Hle j). congruence. }
  split.
  { intros j perm t Hjk Hj Ht.
    destruct (mapM_result_lookup _ _ _ _ _ Hsums Hj) as (y & Hy & Hexp).
    apply (Hlt j); [done|]. congruence. }
  split; [done|].
  pose proof (sort_head_argmin (sums s) k m (conj Hk (conj Hle Hlt))) as Hhead.
  unfold list_index in Hhead. rewrite <- head_lookup in Hhead.
  by destruct (head (np.sort (sums s))); [injection Hhead as ->|].
Qed.

(** C3, at the two independent tasks of section 8. *)
Lemma main_selects_first_minimizer_witness :
  ∃ s r k,
    main_search (switch_from_names df_two) = Ok s
    ∧ snd (main draw_one df_two) = Ok r
    ∧ valid_perms s = [[1; 2]; [2; 1]]
    ∧ [[1; 2]; [2; 1]] !! k = Some (best_order s)
    ∧ present_task_names (best_order s) (switch_from_names df_two)
      = Ok (optimal_order r)
    ∧ expected_time (switch_from_names df_two) (best_order s)
      = Ok (expected_time_shown r)
    ∧ (∀ perm t, perm ∈ [[1; 2]; [2; 1]] →
                 expected_time (switch_from_names df_two) perm = Ok t →
                 (expected_time_shown r <= t)%R)
    ∧ (∀ j perm t, j < k → [[1; 2]; [2; 1]] !! j = Some perm →
                   expected_time (switch_from_names df_two) perm = Ok t →
                   (expected_time_shown r < t)%R)
    ∧ plot_sorted_sums r = np.sort (sums s)
    ∧ head (plot_sorted_sums r) = Some (expected_time_shown r).
Proof.
  apply (main_selects_first_minimizer draw_one df_two [[1; 2]; [2; 1]]).
  - discriminate.
  - reflexivity.
  - discriminate.
Defined.

(** C4, refuted: on the table where A and B name each other no
    ordering is feasible, and [main] stops in [np.argmin] on the empty
    list of expected times. *)
Lemma main_cyclic_crashes_on_empty_argmin :
  validate_perms (gen_perms (switch_from_names df_cyclic))
                 (D <$> switch_from_names df_cyclic) = Ok []
  ∧ crashes_on_empty_argmin (snd (main draw_one df_cyclic)).
Proof. split; reflexivity. Qed.

(** C4, as the code behaves. When no task lists itself as a
    dependency and no ordering of the tasks is feasible (for example
    because two tasks name each other), [main] has no error of its
    own: [validate_perms] returns the empty list and [main] raises the
    [ValueError] of [np.argmin] applied to an empty sequence. *)
Theorem main_without_feasible_ordering (draw : nat → R → nat → R) (df : DataFrame) :
  let df' := switch_from_names df in
  let deps := D <$> df' in
  (∀ perm, perm ∈ gen_perms df' → no_self_dependency perm deps) →
  (∀ perm, perm ∈ gen_perms df' → ¬ feasible perm deps) →
  validate_perms (gen_perms df') deps = Ok []
  ∧ crashes_on_empty_argmin (snd (main draw df)).
Proof.
  intros df' deps Hself Hinf.
  assert (Hval : validate_perms (gen_perms df') deps = Ok []).
  { unfold deps. rewrite validate_perms_filter.
    2:{ intros perm index Hperm Hindex. rewrite length_fmap.
        by apply (gen_perms_range df' perm). }
    f_equal. apply filter_none_accepted. intros perm Hperm Hok.
    destruct (check_perm_decides_feasible perm (D <$> df'))
      as [[_ Hfeas]|[Hrej _]].
    - intros index Hindex. rewrite length_fmap.
      by apply (gen_perms_range df' perm).
    - by apply Hself.
    - by apply (Hinf perm).
    - congruence. }
  split; [exact Hval|].
  unfold crashes_on_empty_argmin, main. cbn [snd]. fold df'.
  by rewrite (main_search_empty _ Hval).
Qed.

Lemma main_without_feasible_ordering_witness :
  validate_perms (gen_perms (switch_from_names df_cyclic))
                 (D <$> switch_from_names df_cyclic) = Ok []
  ∧ crashes_on_empty_argmin (snd (main draw_one df_cyclic)).
Proof.
  assert (Hperms : gen_perms (switch_from_names df_cyclic) = [[1; 2]; [2; 1]])
    by reflexivity.
  assert (Hdeps : D <$> switch_from_names df_cyclic = [[Num 2]; [Num 1]])
    by (vm_compute; reflexivity).
  apply (main_without_feasible_ordering draw_one df_cyclic).
  - intros perm Hperm index Hindex. rewrite Hdeps.
    assert (Hrange : 1 ≤ index ≤ 2).
    { by apply (gen_perms_range (switch_from_names df_cyclic) perm). }
    assert (index = 1 ∨ index = 2) as [-> | ->] by lia; cbn;
      intros Hin; apply list_elem_of_singleton in Hin; discriminate.
  - intros perm Hperm Hfeas. rewrite Hperms in Hperm. rewrite Hdeps in Hfeas.
    apply elem_of_cons in Hperm as [->|Hperm].
    + destruct (Hfeas 0 1 (Num 2) eq_refl (list_elem_of_here _ _))
        as [[=]|(j & i & Hj & _)]. lia.
    + apply list_elem_of_singleton in Hperm as ->.
      destruct (Hfeas 0 2 (Num 1) eq_refl (list_elem_of_here _ _))
        as [[=]|(j & i & Hj & _)]. lia.
Defined.

(** A task that lists itself does not stop [main]: on the table where
    A names A no ordering is feasible, yet both orderings are accepted
    and [main] returns a report. *)
Lemma main_self_dependency_returns :
  (∀ perm, perm ∈ gen_perms (switch_from_names df_self) →
           ¬ feasible perm (D <$> switch_from_names df_self))
  ∧ ∃ r, snd (main draw_one df_self) = Ok r.
Proof.
  assert (Hperms : gen_perms (switch_from_names df_self) = [[1; 2]; [2; 1]])
    by reflexivity.
  assert (Hdeps : D <$> switch_from_names df_self = [[Num 1]; [Num 0]])
    by (vm_compute; reflexivity).
  split.
  - intros perm Hperm Hfeas. rewrite Hperms in Hperm. rewrite Hdeps in Hfeas.
    apply elem_of_cons in Hperm as [->|Hperm].
    + destruct (Hfeas 0 1 (Num 1) eq_refl (list_elem_of_here _ _))
        as [[=]|(j & i & Hj & _)]. lia.
    + apply list_elem_of_singleton in Hperm as ->.
      destruct (Hfeas 1 1 (Num 1) eq_refl (list_elem_of_here _ _))
        as [[=]|(j & i & Hj & Hi & Heq)].
      assert (j = 0) as -> by lia. cbn in Hi. injection Hi as <-. discriminate.
  - set (df' := switch_from_names df_self).
    destruct (main_search_ok df' [[1; 2]; [2; 1]])
      as (s & k & m & Hs & _ & _ & Hsorted & Hmin & _ & _ & Hlen & Hrange);
      [reflexivity|discriminate|].
    destruct (main_report_ok draw_one df' s k m) as (hist_vals & Hreport);
      [discriminate|done..|].
    eexists. unfold main. cbn [snd]. fold df'.
    rewrite Hs, result_bind_ok. exact Hreport.
Qed.

(** C5, refuted: with a task of failure probability 1.0 [main] does
    not stop before the optimisation; it enumerates both orderings,
    accepts both and scores both. *)
Lemma main_search_scores_probability_one :
  Probability <$> df_p_one = [1%R; 0.2%R]
  ∧ ∃ s, main_search (switch_from_names df_p_one) = Ok s
         ∧ valid_perms s = [[1; 2]; [2; 1]]
         ∧ length (sums s) = 2.
Proof.
  split; [reflexivity|].
  apply (main_search_scores_all (switch_from_names df_p_one) [[1; 2]; [2; 1]]).
  - reflexivity.
  - discriminate.
Qed.

(** C5, as the code behaves. [main] makes no check of the
    probabilities: whatever values the table holds, [validate_perms]
    returns the list of accepted orderings; when that list is not
    empty every ordering in it is scored and the search returns, and
    when it is empty the search stops in [np.argmin].  No outcome
    depends on a probability lying strictly between 0 and 1. *)
Theorem main_search_ignores_probability_range (df : DataFrame) :
  let df' := switch_from_names df in
  ∃ valid,
    validate_perms (gen_perms df') (D <$> df') = Ok valid
    ∧ (valid ≠ [] →
       ∃ s, main_search df' = Ok s
            ∧ valid_perms s = valid
            ∧ length (sums s) = length valid)
    ∧ (valid = [] → crashes_on_empty_argmin (main_search df')).
Proof.
  intros df'.
  exists (filter (fun perm => check_perm perm (D <$> df') = Ok true) (gen_perms df')).
  assert (Hval : validate_perms (gen_perms df') (D <$> df')
                 = Ok (filter (fun perm => check_perm perm (D <$> df') = Ok true)
                              (gen_perms df'))).
  { apply validate_perms_filter. intros perm index Hperm Hindex.
    rewrite length_fmap. by apply (gen_perms_range df' perm). }
  split; [exact Hval|]. split.
  - intros Hne. by apply main_search_scores_all.
  - intros Hnil. rewrite Hnil in Hval. by apply main_search_empty.
Qed.

(** C6, refuted: a table of twelve independent tasks is not rejected;
    [main] enumerates and scores all 12! = 479001600 orderings. *)
Lemma main_search_twelve_tasks :
  length df_twelve = 12
  ∧ ∃ s, main_search (switch_from_names df_twelve) = Ok s
         ∧ length (valid_perms s) = fact (length df_twelve)
         ∧ length (sums s) = fact (length df_twelve).
Proof.
  split; [reflexivity|].
  destruct (main_search_unconstrained df_twelve) as (s & Hs & Hv & Hlen).
  - unfold df_twelve. apply Forall_fmap, Forall_forall. intros i _. cbn.
    by repeat constructor.
  - exists s. split; [done|]. split; [|done].
    rewrite Hv. apply gen_perms_length.
Qed.

(** C6, as the code behaves. No bound on the number of tasks is
    checked: [gen_perms] enumerates all [n!] orderings for every [n],
    and on a table without prerequisites [main] scores all of them. *)
Theorem main_search_no_capacity_bound (df : DataFrame) :
  Forall (fun row => Forall (fun c => c = Num 0) (D row)) df →
  length (gen_perms df) = fact (length df)
  ∧ ∃ s, main_search (switch_from_names df) = Ok s
         ∧ valid_perms s = gen_perms df
         ∧ length (sums s) = fact (length df).
Proof.
  intros Hdf. split; [apply gen_perms_length|].
  by apply main_search_unconstrained.
Qed.

Lemma main_search_no_capacity_bound_witness :
  length (gen_perms df_two) = fact (length df_two)
  ∧ ∃ s, main_search (switch_from_names df_two) = Ok s
         ∧ valid_perms s = gen_perms df_two
         ∧ length (sums s) = fact (length df_two).
Proof.
  apply (main_search_no_capacity_bound df_two).
  unfold df_two. by repeat constructor.
Defined.

(** C7. [trim_df] cuts each axis at its first all-zero entry, and at
    its last entry when there is none.  On a sheet with no blank row
    and no blank column it drops the last row and the last column; on
    a sheet with a blank row in the middle it drops the task entered
    after the blank row. *)
Theorem trim_df_drops_nonempty_rows_and_columns :
  trim_df sheet_full
  = {| columns := 3; values := [ [SStr "A"; SNum 2; SNum 0.5] ] |}
  ∧ trim_df sheet_gap
    = {| columns := 4; values := [ [SStr "A"; SNum 2; SNum 0.5; SNum 0] ] |}.
Proof. split; reflexivity. Qed.

(** C8. In [simulate_failures] on a non-empty ordering of rows of the
    table, after [j] passes of the loop the failure times recorded are
    those of the steps 0 .. j-1, where step [i] records, for exactly
    the drawn values of the alive trials that are at most the duration
    of task [i], the time elapsed before task [i] plus the drawn value;
    the pool entering the next step is the pool minus the number of
    trials that just failed, starting from 50000; the clock has
    advanced by the durations of the tasks passed; and the value
    returned is the concatenation of the failure times recorded in all
    steps. *)
Theorem simulate_failures_steps (draw : nat → R → nat → R) (df : DataFrame)
    (index : list nat) :
  index ≠ [] →
  (∀ i, i ∈ index → i < length df) →
  let prob := (fun i => nth i (Probability <$> df) 0%R) <$> index in
  let time := (fun i => nth i (Time <$> df) 0%R) <$> index in
  let lambdas := get_lambdas time prob in
  (∀ j, j < length index →
     let before := sim_state_after draw time lambdas j in
     let after := sim_state_after draw time lambdas (S j) in
     let trials := sim draw j (nth j lambdas 0%R) (success_count before) in
     let failed := filter (fun x => (x <= nth j time 0)%R) trials in
     length trials = success_count before
     ∧ prior_task_time before = big_sum (fun i => nth i time 0%R) j
     ∧ totals after
       = totals before ++ [(fun x => (prior_task_time before + x)%R) <$> failed]
     ∧ success_count after = success_count before - length failed
     ∧ prior_task_time after = (prior_task_time before + nth j time 0)%R)
  ∧ success_count (sim_state_after draw time lambdas 0) = 50000
  ∧ simulate_failures draw df index
    = Ok (concat (totals (sim_state_after draw time lambdas (length index))))
  ∧ totals (sim_state_after draw time lambdas (length index))
    = tab (spec_recorded draw time lambdas) (length index).
Proof.
  intros Hne Hrange prob time lambdas.
  assert (Hlen : length lambdas = length index).
  { unfold lambdas. rewrite length_get_lambdas; unfold time, prob;
      by rewrite !length_fmap. }
  assert (Hfinal : totals (sim_state_after draw time lambdas (length index))
                   = tab (spec_recorded draw time lambdas) (length index)).
  { by apply sim_state_after_spec; rewrite Hlen. }
  split; [|split; [reflexivity|split; [|done]]].
  - intros j Hj. cbv zeta.
    destruct (sim_state_after_spec draw time lambdas j) as (_ & _ & Hprior);
      [lia|].
    split; [apply length_sim|]. split; [exact Hprior|].
    rewrite sim_state_after_S by lia.
    unfold sim_step. cbn [totals success_count prior_task_time fst snd].
    rewrite length_sim. split; [|split; reflexivity].
    f_equal. f_equal. unfold np.addc, filter_leq.
    apply list_fmap_ext. intros _ x _. apply Rplus_comm.
  - rewrite Hfinal. by apply simulate_failures_concat.
Qed.

(** C8, at the ordering (B, A) of the two-task table with a sampler
    that always draws 1. *)
Lemma simulate_failures_steps_witness :
  simulate_failures draw_one df_two [1; 0]
  = Ok (concat (totals
         (sim_state_after draw_one [3%R; 2%R]
            (get_lambdas [3%R; 2%R] [0.2%R; 0.5%R]) 2))).
Proof.
  apply (simulate_failures_steps draw_one df_two [1; 0]).
  - discriminate.
  - intros i Hi. apply elem_of_cons in Hi as [->|Hi]; [cbn; lia|].
    apply list_elem_of_singleton in Hi as ->. cbn. lia.
Defined.

(** C9, refuted: [main] rewrites the caller's table.  On the table
    where B names A as its prerequisite, the dependency cell of B
    holds the name "A" before the call and the row number 1 after
    it. *)
Lemma main_rewrites_dependency_cells :
  D <$> df_forced = [[Num 0]; [Name "A"]]
  ∧ D <$> fst (main draw_one df_forced) = [[Num 0]; [Num 1]]
  ∧ fst (main draw_one df_forced) ≠ df_forced.
Proof.
  assert (Hafter : D <$> fst (main draw_one df_forced) = [[Num 0]; [Num 1]])
    by (vm_compute; reflexivity).
  split; [reflexivity|]. split; [exact Hafter|].
  intros Heq. rewrite Heq in Hafter. discriminate.
Qed.

(** C9, as the code behaves. When [main] returns or raises, the task
    names, durations and probabilities of the caller's table are
    unchanged; a dependency cell holding a number, or a name that no
    task bears, is unchanged; a dependency cell holding the name of a
    task holds the 1-based number of the last row bearing that name. *)
Theorem main_frame_effect (draw : nat → R → nat → R) (df : DataFrame) :
  let df' := fst (main draw df) in
  Task <$> df' = Task <$> df
  ∧ Time <$> df' = Time <$> df
  ∧ Probability <$> df' = Probability <$> df
  ∧ Forall2 (Forall2 (rewritten_cell (Task <$> df))) (D <$> df) (D <$> df').
Proof.
  cbn [main fst].
  split; [apply switch_from_names_Task|].
  split; [apply switch_from_names_Time|].
  split; [apply switch_from_names_Probability|].
  rewrite switch_from_names_D.
  apply Forall2_fmap_r, Forall_Forall2_diag, Forall_forall. intros dep _.
  apply Forall2_fmap_r, Forall_Forall2_diag, Forall_forall. intros c _.
  apply replace_cell_rewritten.
Qed.


(** * Further properties of the code *)

(** ** The enumeration is exactly the set of permutations *)

Lemma fst_selections {A} (l : list A) : fst <$> selections l = l.
Proof.
  induction l as [|x l IH]; [reflexivity|].
  cbn. rewrite <- list_fmap_compose. f_equal. exact IH.
Qed.

Lemma selections_Permutation {A} (l : list A) (s : A * list A) :
  s ∈ selections l → fst s :: snd s ≡ₚ l.
Proof.
  revert s. induction l as [|x l IH]; intros s Hs; cbn in Hs.
  - by apply elem_of_nil in Hs.
  - apply elem_of_cons in Hs as [->|Hs]; [reflexivity|].
    apply list_elem_of_fmap in Hs as (s' & -> & Hs'). cbn.
    rewrite Permutation_swap. by rewrite (IH s' Hs').
Qed.

Lemma selections_pick {A} (l : list A) (x : A) :
  x ∈ l → ∃ s, s ∈ selections l ∧ fst s = x.
Proof.
  intros Hx. rewrite <- (fst_selections l) in Hx.
  apply list_elem_of_fmap in Hx as (s & -> & Hs). eauto.
Qed.

Lemma permutations_fuel_Permutation {A} (n : nat) : ∀ (l perm : list A),
  length l = n → perm ∈ permutations_fuel n l → perm ≡ₚ l.
Proof.
  induction n as [|n IH]; intros l perm Hl Hperm.
  - apply list_elem_of_singleton in Hperm as ->.
    destruct l; [reflexivity|discriminate].
  - destruct l as [|x l]; [discriminate|].
    cbn [permutations_fuel] in Hperm.
    apply list_elem_of_bind in Hperm as (s & Hperm & Hs).
    apply list_elem_of_fmap in Hperm as (perm' & -> & Hperm').
    pose proof (selections_Permutation _ _ Hs) as Hsel.
    rewrite <- Hsel. constructor. apply IH; [|done].
    apply Permutation_length in Hsel. cbn in Hsel. cbn in Hl. lia.
Qed.

Lemma permutations_fuel_complete {A} (n : nat) : ∀ (l perm : list A),
  length l = n → perm ≡ₚ l → perm ∈ permutations_fuel n l.
Proof.
  induction n as [|n IH]; intros l perm Hl Hperm.
  - destruct l; [|discriminate]. apply Permutation_nil_r in Hperm as ->.
    apply list_elem_of_here.
  - destruct l as [|x l]; [discriminate|].
    destruct perm as [|y perm].
    { apply Permutation_length in Hperm. discriminate. }
    cbn [permutations_fuel].
    destruct (selections_pick (x :: l) y) as (s & Hs & Hy).
    { rewrite <- Hperm. apply list_elem_of_here. }
    pose proof (selections_Permutation _ _ Hs) as Hsel. rewrite Hy in Hsel.
    apply list_elem_of_bind. exists s. split; [|done].
    rewrite Hy. apply list_elem_of_fmap_2. apply IH.
    + apply Permutation_length in Hsel. cbn in Hsel. cbn in Hl. lia.
    + apply (Permutation_cons_inv (a:=y)). by rewrite Hsel.
Qed.

Lemma NoDup_bind_heads {A} (ss : list (A * list A)) (g : A * list A → list (list A)) :
  NoDup (fst <$> ss) →
  (∀ s, s ∈ ss → NoDup (g s)) →
  NoDup (ss ≫= fun s => cons (fst s) <$> g s).
Proof.
  induction ss as [|s ss IH]; intros Hheads Hg; [constructor|].
  rewrite bind_cons. cbn in Hheads. apply NoDup_cons in Hheads as [Hs Hss].
  apply NoDup_app. split; [|split].
  - apply NoDup_fmap_2; [|apply Hg, list_elem_of_here].
    intros a b [= ->]. reflexivity.
  - intros perm Hperm Hin.
    apply list_elem_of_fmap in Hperm as (p1 & -> & _).
    apply list_elem_of_bind in Hin as (s' & Hin & Hs').
    apply list_elem_of_fmap in Hin as (p2 & [= Hfst _] & _).
    apply Hs. rewrite Hfst. by apply list_elem_of_fmap_2.
  - apply IH; [done|]. intros s' Hs'. by apply Hg, list_elem_of_further.
Qed.

Lemma permutations_fuel_NoDup {A} (n : nat) : ∀ (l : list A),
  length l = n → NoDup l → NoDup (permutations_fuel n l).
Proof.
  induction n as [|n IH]; intros l Hl Hnd.
  - apply NoDup_singleton.
  - destruct l as [|x l]; [discriminate|].
    cbn [permutations_fuel].
    apply (NoDup_bind_heads _ (fun s => permutations_fuel n (snd s))).
    + by rewrite fst_selections.
    + intros s Hs. pose proof (selections_Permutation _ _ Hs) as Hsel.
      apply IH.
      * apply Permutation_length in Hsel. cbn in Hsel. cbn in Hl. lia.
      * rewrite <- Hsel in Hnd. by apply NoDup_cons in Hnd as [_ ?].
Qed.

Lemma gen_perms_iff_Permutation (df : DataFrame) (perm : list nat) :
  perm ∈ gen_perms df ↔ perm ≡ₚ seq 1 (length df).
Proof.
  unfold gen_perms, permutations. rewrite length_seq. split.
  - apply permutations_fuel_Permutation. by rewrite length_seq.
  - apply permutations_fuel_complete. by rewrite length_seq.
Qed.

(** X1. [gen_perms] yields exactly the orderings of the row numbers
    1 .. n: a list is enumerated if and only if it is a permutation of
    1 .. n, so every ordering names every row once. *)
Theorem gen_perms_exactly_the_permutations (df : DataFrame) (perm : list nat) :
  (perm ∈ gen_perms df ↔ perm ≡ₚ seq 1 (length df))
  ∧ (perm ∈ gen_perms df →
     NoDup perm ∧ ∀ index, index ∈ perm ↔ 1 ≤ index ≤ length df).
Proof.
  split; [apply gen_perms_iff_Permutation|].
  intros Hperm. apply gen_perms_iff_Permutation in Hperm. split.
  - rewrite Hperm. apply NoDup_seq.
  - intros index. rewrite Hperm, elem_of_seq. lia.
Qed.

(** X2. [gen_perms] yields each ordering once, [n!] orderings in all. *)
Theorem gen_perms_distinct (df : DataFrame) :
  NoDup (gen_perms df) ∧ length (gen_perms df) = fact (length df).
Proof.
  split; [|apply gen_perms_length].
  unfold gen_perms, permutations. rewrite length_seq.
  apply permutations_fuel_NoDup; [by rewrite length_seq|apply NoDup_seq].
Qed.

(** ** The orderings [validate_perms] keeps *)

Lemma gen_perms_deps_range (df : DataFrame) (perm : list nat) (index : nat) :
  perm ∈ gen_perms df → index ∈ perm → 1 ≤ index ≤ length (D <$> df).
Proof. rewrite length_fmap. apply gen_perms_range. Qed.

(** X3. On the orderings of [gen_perms], [validate_perms] never raises:
    it returns, in enumeration order, exactly the orderings for which
    [check_perm] answers [True], at most [n!] of them. *)
Theorem validate_perms_keeps_accepted (df : DataFrame) :
  ∃ valid,
    validate_perms (gen_perms df) (D <$> df) = Ok valid
    ∧ valid `sublist_of` gen_perms df
    ∧ (∀ perm, perm ∈ valid ↔
               perm ∈ gen_perms df ∧ check_perm perm (D <$> df) = Ok true)
    ∧ length valid ≤ fact (length df).
Proof.
  exists (filter (fun perm => check_perm perm (D <$> df) = Ok true) (gen_perms df)).
  split; [apply validate_perms_filter, gen_perms_deps_range|].
  split; [apply sublist_filter|]. split.
  - intros perm. rewrite list_elem_of_filter. tauto.
  - rewrite <- gen_perms_length. apply sublist_length, sublist_filter.
Qed.

(** X4. On a table where no task of the ordering lists itself,
    [check_perm] answers [True] exactly for the feasible orderings and
    [False] exactly for the others. *)
Theorem check_perm_feasible_iff (perm : list nat) (deps : list (list cell)) :
  (∀ index, index ∈ perm → 1 ≤ index ≤ length deps) →
  no_self_dependency perm deps →
  (check_perm perm deps = Ok true ↔ feasible perm deps)
  ∧ (check_perm perm deps = Ok false ↔ ¬ feasible perm deps).
Proof.
  intros Hrange Hself.
  destruct (check_perm_decides_feasible perm deps Hrange Hself)
    as [[Hok Hfeas]|[Hok Hinf]]; rewrite Hok.
  - split; split; try done; intros Hn; by destruct Hn.
  - split; split; try done; intros Hn; by destruct Hinf.
Qed.

Lemma check_perm_feasible_iff_witness :
  (check_perm [1; 2; 3] (D <$> switch_from_names df_three) = Ok true
   ↔ feasible [1; 2; 3] (D <$> switch_from_names df_three))
  ∧ (check_perm [1; 2; 3] (D <$> switch_from_names df_three) = Ok false
     ↔ ¬ feasible [1; 2; 3] (D <$> switch_from_names df_three)).
Proof.
  assert (Hdeps : D <$> switch_from_names df_three
                  = [[Num 0; Num 0]; [Num 1; Num 0]; [Num 1; Num 2]])
    by (vm_compute; reflexivity).
  rewrite Hdeps.
  apply (check_perm_feasible_iff [1; 2; 3]).
  - intros index Hin. cbn.
    repeat (apply elem_of_cons in Hin as [->|Hin]; [lia|]).
    by apply elem_of_nil in Hin.
  - intros index Hin Hdep.
    repeat (apply elem_of_cons in Hin as [->|Hin];
            [cbn in Hdep;
             repeat (apply elem_of_cons in Hdep as [[=]|Hdep]);
             by apply elem_of_nil in Hdep|]).
    by apply elem_of_nil in Hin.
Defined.

(** X5. In every ordering that [check_perm] accepts, a prerequisite of
    a task that is another task of the table stands strictly before
    the task. *)
Theorem accepted_ordering_respects_prerequisites (perm : list nat)
    (deps : list (list cell)) (k a b : nat) :
  (∀ index, index ∈ perm → 1 ≤ index ≤ length deps) →
  check_perm perm deps = Ok true →
  perm !! k = Some b →
  Num (Z.of_nat a) ∈ declared_deps deps b →
  a ≠ 0 → a ≠ b →
  ∃ j, j < k ∧ perm !! j = Some a.
Proof.
  intros Hrange Hok Hk Hdep Ha0 Hab. unfold check_perm in Hok.
  destruct (check_perm_loop_spec perm [0] deps Hrange) as [[_ Hacc]|[Hrej _]];
    [|congruence].
  pose proof (Hacc k b _ Hk Hdep) as Hin.
  apply elem_in_true in Hin as (i & Hin & [= Hai]).
  apply Nat2Z.inj in Hai as <-.
  change ([0] ++ take (S k) perm) with (0 :: take (S k) perm) in Hin.
  apply elem_of_cons in Hin as [->|Hin]; [done|].
  apply list_elem_of_lookup in Hin as (j & Hj).
  apply lookup_take_Some in Hj as [Hj Hlt].
  exists j. split; [|done].
  destruct (decide (j = k)) as [->|]; [congruence|lia].
Qed.

Lemma accepted_ordering_respects_prerequisites_witness :
  ∃ j, j < 2 ∧ [1; 2; 3] !! j = Some 2.
Proof.
  apply (accepted_ordering_respects_prerequisites [1; 2; 3]
           [[Num 0; Num 0]; [Num 1; Num 0]; [Num 1; Num 2]] 2 2 3).
  - intros index Hin. cbn.
    repeat (apply elem_of_cons in Hin as [->|Hin]; [lia|]).
    by apply elem_of_nil in Hin.
  - reflexivity.
  - reflexivity.
  - cbn. apply list_elem_of_further, list_elem_of_here.
  - lia.
  - lia.
Defined.

Lemma filter_none {A} (P : A → Prop) `{∀ x, Decision (P x)} (l : list A) :
  (∀ x, x ∈ l → ¬ P x) → filter P l = [].
Proof.
  induction l as [|x l IH]; intros HP; [reflexivity|].
  rewrite filter_cons, decide_False by apply HP, list_elem_of_here.
  apply IH. intros y Hy. by apply HP, list_elem_of_further.
Qed.

Lemma name_to_row_dict_unknown (df : DataFrame) (s : string) :
  s ∉ Task <$> df → name_to_row_dict df !! s = None.
Proof.
  intros Hs. unfold name_to_row_dict. rewrite <- (length_fmap Task df).
  pose proof (names_dict_lookup (Task <$> df) s) as Hdict.
  destruct (dict_of_pairs _ !! s) as [row|]; [|done].
  destruct Hdict as (r & _ & Hr & _). exfalso. apply Hs.
  apply list_elem_of_lookup. eauto.
Qed.

(** X6. A dependency cell holding a name that no task bears is not
    reported: it makes [check_perm] reject every ordering, so
    [validate_perms] returns the empty list and [main] stops in
    [np.argmin]. *)
Theorem unknown_dependency_rejects_every_ordering (draw : nat → R → nat → R)
    (df : DataFrame) (r : nat) (row : task) (s : string) :
  df !! r = Some row →
  Name s ∈ D row →
  s ∉ Task <$> df →
  validate_perms (gen_perms (switch_from_names df))
                 (D <$> switch_from_names df) = Ok []
  ∧ crashes_on_empty_argmin (snd (main draw df)).
Proof.
  intros Hrow Hcell Hunknown.
  set (df' := switch_from_names df).
  assert (Hval : validate_perms (gen_perms df') (D <$> df') = Ok []).
  { rewrite validate_perms_filter by apply gen_perms_deps_range. f_equal.
    apply filter_none. intros perm Hperm Hok. unfold check_perm in Hok.
    destruct (check_perm_loop_spec perm [0] (D <$> df')) as [[_ Hacc]|[Hrej _]];
      [intros index; by apply gen_perms_deps_range| |congruence].
    assert (Hin : S r ∈ perm).
    { apply gen_perms_iff_Permutation in Hperm. rewrite Hperm.
      apply elem_of_seq. unfold df'. rewrite length_switch_from_names.
      apply lookup_lt_Some in Hrow. lia. }
    apply list_elem_of_lookup in Hin as (k & Hk).
    assert (Hdep : Name s ∈ declared_deps (D <$> df') (S r)).
    { unfold declared_deps, df'. rewrite switch_from_names_D.
      replace (S r - 1) with r by lia.
      rewrite !list_lookup_fmap, Hrow. cbn.
      apply list_elem_of_fmap. exists (Name s). split; [|done].
      cbn. by rewrite name_to_row_dict_unknown. }
    specialize (Hacc k (S r) (Name s) Hk Hdep). discriminate. }
  split; [exact Hval|].
  unfold crashes_on_empty_argmin, main. cbn [snd]. fold df'.
  by rewrite (main_search_empty _ Hval).
Qed.

Lemma unknown_dependency_rejects_every_ordering_witness :
  validate_perms (gen_perms (switch_from_names df_unknown))
                 (D <$> switch_from_names df_unknown) = Ok []
  ∧ crashes_on_empty_argmin (snd (main draw_one df_unknown)).
Proof.
  apply (unknown_dependency_rejects_every_ordering draw_one df_unknown 1
           {| Task := "B"; Time := 3; Probability := 0.2; D := [Name "Z"] |} "Z").
  - reflexivity.
  - apply list_elem_of_here.
  - cbn. intros Hin.
    repeat (apply elem_of_cons in Hin as [[=]|Hin]).
    by apply elem_of_nil in Hin.
Defined.

(** ** Names and row numbers: round trips *)

Lemma name_to_row_dict_switch_from_names (df : DataFrame) :
  name_to_row_dict (switch_from_names df) = name_to_row_dict df.
Proof.
  unfold name_to_row_dict.
  by rewrite switch_from_names_Task, length_switch_from_names.
Qed.

Lemma row_to_name_dict_switch_from_names (df : DataFrame) :
  row_to_name_dict (switch_from_names df) = row_to_name_dict df.
Proof.
  unfold row_to_name_dict.
  by rewrite switch_from_names_Task, length_switch_from_names.
Qed.

Lemma replace_cell_idempotent (d : gmap string nat) (c : cell) :
  replace_cell d (replace_cell d c) = replace_cell d c.
Proof.
  destruct c as [z|s]; cbn; [done|].
  destruct (d !! s) as [row|] eqn:Hs; cbn; [done|]. by rewrite Hs.
Qed.

Lemma task_rows_ext (f g : cell → cell) (df : DataFrame) :
  (∀ row c, row ∈ df → c ∈ D row → f c = g c) →
  (fun row => {| Task := Task row; Time := Time row;
                 Probability := Probability row; D := f <$> D row |}) <$> df
  = (fun row => {| Task := Task row; Time := Time row;
                   Probability := Probability row; D := g <$> D row |}) <$> df.
Proof.
  intros Hfg. apply list_fmap_ext. intros i row Hrow. f_equal.
  apply list_fmap_ext. intros j c Hc.
  apply (Hfg row c); by eapply list_elem_of_lookup_2.
Qed.

Lemma task_rows_id (f : cell → cell) (df : DataFrame) :
  (∀ row c, row ∈ df → c ∈ D row → f c = c) →
  (fun row => {| Task := Task row; Time := Time row;
                 Probability := Probability row; D := f <$> D row |}) <$> df
  = df.
Proof.
  intros Hf. rewrite (task_rows_ext f (fun c => c) df) by done.
  induction df as [|[name time prob dep] df IH]; [reflexivity|].
  cbn. rewrite IH.
  - f_equal. f_equal. exact (list_fmap_id dep).
  - intros row c Hrow. apply Hf. by apply list_elem_of_further.
Qed.

(** X7. [switch_from_names] is idempotent, so a second run of [main]
    on the same frame finds the table the first run left. *)
Theorem switch_from_names_idempotent (draw : nat → R → nat → R) (df : DataFrame) :
  switch_from_names (switch_from_names df) = switch_from_names df
  ∧ fst (main draw (fst (main draw df))) = fst (main draw df).
Proof.
  assert (H : switch_from_names (switch_from_names df) = switch_from_names df).
  { unfold switch_from_names at 1.
    rewrite name_to_row_dict_switch_from_names.
    apply task_rows_id. intros row c Hrow Hc.
    unfold switch_from_names in Hrow.
    apply list_elem_of_fmap in Hrow as (row0 & -> & _). cbn in Hc.
    apply list_elem_of_fmap in Hc as (c0 & -> & _).
    apply replace_cell_idempotent. }
  split; [exact H|]. exact H.
Qed.

Lemma switch_to_from_compose (df : DataFrame) :
  switch_to_names (switch_from_names df)
  = (fun row => {| Task := Task row; Time := Time row;
                   Probability := Probability row;
                   D := (fun c => replace_row (row_to_name_dict df)
                                    (replace_cell (name_to_row_dict df) c))
                        <$> D row |}) <$> df.
Proof.
  unfold switch_to_names. rewrite row_to_name_dict_switch_from_names.
  unfold switch_from_names. rewrite <- list_fmap_compose.
  apply list_fmap_ext. intros i row _. cbn. f_equal.
  by rewrite <- list_fmap_compose.
Qed.

(** X8. Turning names into row numbers and back gives the table back,
    provided no dependency cell already holds a row number between 1
    and n (such a cell would come back as a name). *)
Theorem switch_to_names_after_from_names (df : DataFrame) :
  (∀ row z, row ∈ df → Num z ∈ D row → ¬ (1 ≤ z ≤ Z.of_nat (length df))%Z) →
  switch_to_names (switch_from_names df) = df.
Proof.
  intros Hnum. rewrite switch_to_from_compose.
  apply task_rows_id. intros row c Hrow Hc.
  destruct c as [z|s]; cbn.
  - case_bool_decide as Hz; [|done].
    unfold row_to_name_dict. rewrite <- (length_fmap Task df) at 1.
    rewrite rows_dict_lookup.
    destruct (Z.to_nat z) as [|r] eqn:Hr; [done|].
    destruct ((Task <$> df) !! r) as [name|] eqn:Hname; [|done].
    exfalso. apply (Hnum row z Hrow Hc).
    apply lookup_lt_Some in Hname. rewrite length_fmap in Hname. lia.
  - unfold name_to_row_dict. rewrite <- (length_fmap Task df) at 1.
    pose proof (names_dict_lookup (Task <$> df) s) as Hdict.
    destruct (dict_of_pairs _ !! s) as [row'|]; [|done].
    destruct Hdict as (r & -> & Hr & _). cbn.
    rewrite bool_decide_true by lia. rewrite Nat2Z.id.
    unfold row_to_name_dict. rewrite <- (length_fmap Task df) at 1.
    by rewrite rows_dict_lookup, Hr.
Qed.

Lemma switch_to_names_after_from_names_witness :
  switch_to_names (switch_from_names df_three) = df_three.
Proof.
  apply (switch_to_names_after_from_names df_three).
  intros row z Hrow Hcell Hz. cbn in Hz.
  apply list_elem_of_In in Hrow. cbn in Hrow.
  destruct Hrow as [<-|[<-|[<-|[]]]];
    apply list_elem_of_In in Hcell; cbn in Hcell;
    repeat match goal with
           | H : _ ∨ _ |- _ => destruct H
           | H : False |- _ => destruct H
           | H : Num _ = Num _ |- _ => injection H as <-
           | H : Name _ = Num _ |- _ => discriminate H
           end; lia.
Defined.

Lemma switch_to_names_Task (df : DataFrame) :
  Task <$> switch_to_names df = Task <$> df.
Proof. unfold switch_to_names. by rewrite <- list_fmap_compose. Qed.

Lemma length_switch_to_names (df : DataFrame) :
  length (switch_to_names df) = length df.
Proof. unfold switch_to_names. by rewrite length_fmap. Qed.

Lemma switch_from_to_compose (df : DataFrame) :
  switch_from_names (switch_to_names df)
  = (fun row => {| Task := Task row; Time := Time row;
                   Probability := Probability row;
                   D := (fun c => replace_cell (name_to_row_dict df)
                                    (replace_row (row_to_name_dict df) c))
                        <$> D row |}) <$> df.
Proof.
  unfold switch_from_names, name_to_row_dict.
  rewrite switch_to_names_Task, length_switch_to_names.
  unfold switch_to_names. rewrite <- list_fmap_compose.
  apply list_fmap_ext. intros i row _. cbn. f_equal.
  by rewrite <- list_fmap_compose.
Qed.

(** With distinct names, the dictionary maps the name in row [r] to
    [r + 1]. *)
Lemma name_to_row_dict_NoDup (df : DataFrame) (r : nat) (name : string) :
  NoDup (Task <$> df) →
  (Task <$> df) !! r = Some name →
  name_to_row_dict df !! name = Some (S r).
Proof.
  intros Hnd Hr. unfold name_to_row_dict. rewrite <- (length_fmap Task df).
  pose proof (names_dict_lookup (Task <$> df) name) as Hdict.
  destruct (dict_of_pairs _ !! name) as [row|].
  - destruct Hdict as (r' & -> & Hr' & _).
    by rewrite (NoDup_lookup _ _ _ _ Hnd Hr Hr').
  - exfalso. apply Hdict, list_elem_of_lookup. eauto.
Qed.

Lemma row_to_name_dict_lookup (df : DataFrame) (row : nat) :
  row_to_name_dict df !! row
  = match row with O => None | S r => (Task <$> df) !! r end.
Proof.
  unfold row_to_name_dict. rewrite <- (length_fmap Task df).
  apply rows_dict_lookup.
Qed.

(** X9. With distinct task names, turning row numbers into names and
    back gives the table back, provided no dependency cell already
    holds the name of a task. *)
Theorem switch_from_names_after_to_names (df : DataFrame) :
  NoDup (Task <$> df) →
  (∀ row s, row ∈ df → Name s ∈ D row → s ∉ Task <$> df) →
  switch_from_names (switch_to_names df) = df.
Proof.
  intros Hnd Hname. rewrite switch_from_to_compose.
  apply task_rows_id. intros row c Hrow Hc.
  destruct c as [z|s]; cbn.
  - case_bool_decide as Hz; [|done].
    rewrite row_to_name_dict_lookup.
    destruct (Z.to_nat z) as [|r] eqn:Hr; [done|].
    destruct ((Task <$> df) !! r) as [name|] eqn:Hr'; [|done].
    cbn. rewrite (name_to_row_dict_NoDup df r name Hnd Hr').
    f_equal. lia.
  - by rewrite (name_to_row_dict_unknown df s (Hname row s Hrow Hc)).
Qed.

Lemma switch_from_names_after_to_names_witness :
  switch_from_names (switch_to_names (switch_from_names df_three))
  = switch_from_names df_three.
Proof.
  apply (switch_from_names_after_to_names (switch_from_names df_three)).
  - vm_compute. repeat constructor; intros Hin;
      apply list_elem_of_In in Hin; cbn in Hin;
      repeat match goal with
             | H : _ ∨ _ |- _ => destruct H
             | H : False |- _ => destruct H
             | H : _ = _ |- _ => discriminate H
             end.
  - intros row s Hrow Hcell.
    assert (Hdf : switch_from_names df_three
                  = [ {| Task := "A"; Time := 2; Probability := 0.5;
                         D := [Num 0; Num 0] |};
                      {| Task := "B"; Time := 3; Probability := 0.2;
                         D := [Num 1; Num 0] |};
                      {| Task := "C"; Time := 1; Probability := 0.1;
                         D := [Num 1; Num 2] |} ])
      by (unfold switch_from_names; vm_compute; reflexivity).
    rewrite Hdf in Hrow. exfalso.
    apply list_elem_of_In in Hrow. cbn in Hrow.
    destruct Hrow as [<-|[<-|[<-|[]]]];
      apply list_elem_of_In in Hcell; cbn in Hcell;
      repeat match goal with
             | H : _ ∨ _ |- _ => destruct H
             | H : False |- _ => destruct H
             | H : Num _ = Name _ |- _ => discriminate H
             end.
Defined.

Lemma mapM_result_fmap {A B C} (f : B → result C) (g : A → B) (h : A → C)
    (l : list A) :
  (∀ x, x ∈ l → f (g x) = Ok (h x)) → mapM f (g <$> l) = Ok (h <$> l).
Proof.
  induction l as [|x l IH]; intros Hf; [reflexivity|].
  cbn. rewrite (Hf x) by apply list_elem_of_here. cbn.
  rewrite IH; [reflexivity|].
  intros y Hy. apply Hf. by apply list_elem_of_further.
Qed.

(** X10. With distinct task names, looking up the names of an ordering
    and turning them back into positions, as [main] does to obtain
    [best_index], gives the ordering shifted to 0-based positions: the
    simulation is run on the ordering that was selected. *)
Theorem best_index_is_best_order (arr : list nat) (df : DataFrame) :
  NoDup (Task <$> df) →
  (∀ row, row ∈ arr → 1 ≤ row ≤ length df) →
  ∃ names,
    present_task_names arr df = Ok names
    ∧ rows_of_names names df = Ok ((fun row => row - 1) <$> arr).
Proof.
  intros Hnd Hrange.
  exists ((fun row => nth (row - 1) (Task <$> df) "") <$> arr). split.
  - apply mapM_result_ok. intros row Hrow.
    destruct (Hrange row Hrow) as [H1 Hn].
    rewrite row_to_name_dict_lookup. destruct row as [|r]; [lia|].
    replace (S r - 1) with r by lia. rewrite nth_lookup.
    destruct (lookup_lt_is_Some_2 (Task <$> df) r) as [name ->]; [|done].
    rewrite length_fmap. lia.
  - apply mapM_result_fmap. intros row Hrow.
    destruct (Hrange row Hrow) as [H1 Hn].
    destruct row as [|r]; [lia|]. replace (S r - 1) with r by lia.
    rewrite nth_lookup.
    destruct (lookup_lt_is_Some_2 (Task <$> df) r) as [name Hname].
    { rewrite length_fmap. lia. }
    rewrite Hname. cbn.
    rewrite (name_to_row_dict_NoDup df r name Hnd Hname). f_equal. lia.
Qed.

Lemma best_index_is_best_order_witness :
  ∃ names,
    present_task_names [3; 1; 2] df_three = Ok names
    ∧ rows_of_names names df_three = Ok ((fun row => row - 1) <$> [3; 1; 2]).
Proof.
  apply (best_index_is_best_order [3; 1; 2] df_three).
  - vm_compute. repeat constructor; intros Hin;
      apply list_elem_of_In in Hin; cbn in Hin;
      repeat match goal with
             | H : _ ∨ _ |- _ => destruct H
             | H : False |- _ => destruct H
             | H : _ = _ |- _ => discriminate H
             end.
  - intros row Hrow. cbn.
    apply list_elem_of_In in Hrow. cbn in Hrow.
    destruct Hrow as [<-|[<-|[<-|[]]]]; lia.
Defined.

(** ** Errors and bounds *)

Lemma mapM_result_raise {A B} (f : A → result B) (e : exn) (l : list A) :
  (∀ x, x ∈ l → f x = Raise e ∨ ∃ y, f x = Ok y) →
  (∃ x, x ∈ l ∧ f x = Raise e) →
  mapM f l = Raise e.
Proof.
  induction l as [|x l IH]; intros Hall (x0 & Hin & Hx0).
  - by apply elem_of_nil in Hin.
  - cbn. destruct (Hall x (list_elem_of_here _ _)) as [Hx|[y Hy]].
    + by rewrite Hx.
    + rewrite Hy. cbn. rewrite IH; [reflexivity| |].
      * intros z Hz. by apply Hall, list_elem_of_further.
      * apply elem_of_cons in Hin as [->|Hin]; [congruence|eauto].
Qed.

Lemma mapM_result_cases {A B} (f : A → result B) (e : exn) (l : list A) :
  (∀ x, x ∈ l → f x = Raise e ∨ ∃ y, f x = Ok y) →
  mapM f l = Raise e ∨ ∃ k, mapM f l = Ok k.
Proof.
  induction l as [|x l IH]; intros Hall; [right; by exists []|].
  cbn. destruct (Hall x (list_elem_of_here _ _)) as [Hx|[y Hy]].
  - left. by rewrite Hx.
  - rewrite Hy. cbn. destruct IH as [Hl|[k Hk]].
    + intros z Hz. by apply Hall, list_elem_of_further.
    + left. by rewrite Hl.
    + right. rewrite Hk. by eexists.
Qed.

Lemma series_loc_cases (series : list R) (perm : list nat) :
  series_loc series perm = Raise KeyError ∨ ∃ col, series_loc series perm = Ok col.
Proof.
  apply mapM_result_cases. intros index _.
  destruct index as [|k]; [by left|].
  destruct (series !! k); [right; by eexists|by left].
Qed.

Lemma series_loc_key_error (series : list R) (perm : list nat) (index : nat) :
  index ∈ perm → index = 0 ∨ length series < index →
  series_loc series perm = Raise KeyError.
Proof.
  intros Hin Hout. apply mapM_result_raise.
  - intros i _. destruct i as [|k]; [by left|].
    destruct (series !! k); [right; by eexists|by left].
  - exists index. split; [done|]. destruct index as [|k]; [done|].
    rewrite lookup_ge_None_2; [done|]. destruct Hout; [done|lia].
Qed.

(** X11. [get_expected_times] raises [KeyError] as soon as one of the
    orderings names a row number that is 0 or larger than the number
    of rows. *)
Theorem get_expected_times_key_error (df : DataFrame) (perms : list (list nat))
    (perm : list nat) (index : nat) :
  perm ∈ perms → index ∈ perm → index = 0 ∨ length df < index →
  get_expected_times perms df = Raise KeyError.
Proof.
  intros Hperm Hin Hout. unfold get_expected_times.
  apply mapM_result_raise.
  - intros p _. unfold expected_time.
    destruct (series_loc_cases (Probability <$> df) p) as [->|[pc ->]];
      [by left|].
    rewrite result_bind_ok.
    destruct (series_loc_cases (Time <$> df) p) as [->|[tc ->]]; [by left|].
    right. by eexists.
  - exists perm. split; [done|]. unfold expected_time.
    rewrite (series_loc_key_error (Probability <$> df) perm index);
      [reflexivity|done|].
    by rewrite length_fmap.
Qed.

Lemma get_expected_times_key_error_witness :
  get_expected_times [[1; 2]; [2; 3]] df_two = Raise KeyError.
Proof.
  apply (get_expected_times_key_error df_two [[1; 2]; [2; 3]] [2; 3] 3).
  - apply list_elem_of_further, list_elem_of_here.
  - apply list_elem_of_further, list_elem_of_here.
  - right. cbn. lia.
Defined.

(** X12. [present_task_names] raises [KeyError] when the ordering names
    a row number that is 0 or larger than the number of rows. *)
Theorem present_task_names_key_error (arr : list nat) (df : DataFrame) (row : nat) :
  row ∈ arr → row = 0 ∨ length df < row →
  present_task_names arr df = Raise KeyError.
Proof.
  intros Hin Hout. apply mapM_result_raise.
  - intros r _. destruct (row_to_name_dict df !! r); [right; by eexists|by left].
  - exists row. split; [done|]. rewrite row_to_name_dict_lookup.
    destruct row as [|r]; [done|].
    rewrite lookup_ge_None_2; [done|]. rewrite length_fmap.
    destruct Hout; [done|lia].
Qed.

Lemma present_task_names_key_error_witness :
  present_task_names [1; 0] df_two = Raise KeyError.
Proof.
  apply (present_task_names_key_error [1; 0] df_two 0).
  - apply list_elem_of_further, list_elem_of_here.
  - by left.
Defined.

Lemma check_perm_loop_unknown_row (perm : list nat) : ∀ prev_ind deps index,
  index ∈ perm → length deps < index →
  check_perm_loop prev_ind perm deps ≠ Ok true.
Proof.
  induction perm as [|i perm IH]; intros prev_ind deps index Hin Hout.
  - by apply elem_of_nil in Hin.
  - cbn [check_perm_loop].
    destruct (deps_row deps i) as [dep|e] eqn:Hrow; [|discriminate].
    rewrite result_bind_ok.
    destruct (negb _); [discriminate|].
    apply elem_of_cons in Hin as [->|Hin]; [|by apply (IH _ _ index)].
    exfalso. destruct i as [|k]; [lia|]. cbn in Hrow.
    rewrite lookup_ge_None_2 in Hrow by lia. discriminate.
Qed.

(** X13. [check_perm] never accepts an ordering that names a row the
    dependency matrix does not have: it answers [False] or raises
    [IndexError]. *)
Theorem check_perm_unknown_row (perm : list nat) (deps : list (list cell))
    (index : nat) :
  index ∈ perm → length deps < index →
  check_perm perm deps = Ok false ∨ check_perm perm deps = Raise IndexError.
Proof.
  intros Hin Hout.
  pose proof (check_perm_loop_unknown_row perm [0] deps index Hin Hout) as Hne.
  unfold check_perm.
  assert (Hcases : ∀ p prev, (∃ b, check_perm_loop prev p deps = Ok b)
                             ∨ check_perm_loop prev p deps = Raise IndexError).
  { induction p as [|i p IHp]; intros prev; [left; by eexists|].
    cbn [check_perm_loop].
    assert (Hrow : (∃ dep, deps_row deps i = Ok dep)
                   ∨ deps_row deps i = Raise IndexError).
    { destruct i as [|k]; cbn.
      - destruct (last deps); [left; by eexists|by right].
      - destruct (deps !! k); [left; by eexists|by right]. }
    destruct Hrow as [[dep ->]| ->]; [|by right].
    rewrite result_bind_ok. destruct (negb _); [left; by eexists|apply IHp]. }
  destruct (Hcases perm [0]) as [[[|] Hb]|Hraise]; [done|by left|by right].
Qed.

Lemma check_perm_unknown_row_witness :
  check_perm [1; 3] [[Num 0]; [Num 0]] = Ok false
  ∨ check_perm [1; 3] [[Num 0]; [Num 0]] = Raise IndexError.
Proof.
  apply (check_perm_unknown_row [1; 3] [[Num 0]; [Num 0]] 3).
  - apply list_elem_of_further, list_elem_of_here.
  - cbn. lia.
Defined.


(** ** The matrix helpers, entry by entry *)

(** X15. Row [i] of [expand_to_lower_tri_mat arr] holds the first
    [i + 1] entries of [arr] followed by zeros, and the matrix is
    square. *)
Theorem expand_to_lower_tri_mat_rows (arr : list R) (i : nat) :
  i < length arr →
  length (expand_to_lower_tri_mat arr) = length arr
  ∧ expand_to_lower_tri_mat arr !! i
    = Some (take (S i) arr ++ replicate (length arr - S i) 0%R).
Proof.
  intros Hi. rewrite expand_to_lower_tri_mat_tab, length_tab.
  split; [done|]. rewrite tab_lookup_lt by done. f_equal.
  apply list_eq. intros j.
  destruct (decide (j < length arr)) as [Hj|Hj].
  - rewrite tab_lookup_lt by done.
    destruct (decide (j ≤ i)) as [Hji|Hji].
    + rewrite bool_decide_true by done.
      rewrite lookup_app_l by (rewrite length_take; lia).
      rewrite lookup_take_lt by lia. rewrite nth_lookup.
      by destruct (lookup_lt_is_Some_2 arr j Hj) as [x ->].
    + rewrite bool_decide_false by done.
      rewrite lookup_app_r by (rewrite length_take; lia).
      rewrite lookup_replicate_2; [done|]. rewrite length_take. lia.
  - rewrite tab_lookup_ge by lia. symmetry. apply lookup_ge_None.
    rewrite length_app, length_take, length_replicate. lia.
Qed.

Lemma expand_to_lower_tri_mat_rows_witness :
  length (expand_to_lower_tri_mat [1; 2; 3]%R) = 3
  ∧ expand_to_lower_tri_mat [1; 2; 3]%R !! 1 = Some [1; 2; 0]%R.
Proof. apply (expand_to_lower_tri_mat_rows [1; 2; 3]%R 1). cbn. lia. Defined.

(** X16. Entry [i] of [prob_prod_arr] is the product of the first [i]
    entries of the vector the matrix was expanded from, times entry
    [i] of [prob_col]: with the complements [1 - p] it is the
    probability of passing the first [i] tasks and failing the next. *)
Theorem prob_prod_arr_entries (prob_comp prob_col : list R) (i : nat) (p : R) :
  length prob_comp = length prob_col →
  prob_col !! i = Some p →
  prob_prod_arr (expand_to_lower_tri_mat prob_comp) prob_col !! i
  = Some (big_prod (fun k => nth k prob_comp 0%R) i * p)%R.
Proof.
  intros Hlen Hp. rewrite prob_prod_arr_tab by done.
  rewrite tab_lookup_lt by (by apply lookup_lt_Some in Hp).
  by rewrite nth_lookup, Hp.
Qed.

Lemma prob_prod_arr_entries_witness :
  prob_prod_arr (expand_to_lower_tri_mat [0.8; 0.7; 0.6]%R) [0.2; 0.3; 0.4]%R !! 2
  = Some (big_prod (fun k => nth k [0.8; 0.7; 0.6]%R 0%R) 2 * 0.4)%R.
Proof.
  by apply (prob_prod_arr_entries [0.8; 0.7; 0.6]%R [0.2; 0.3; 0.4]%R 2 0.4%R).
Defined.

(** X17. Entry [i] of [sum_times] is the sum of the first [i]
    durations: the time elapsed before task [i] starts. *)
Theorem sum_times_entries (time_col : list R) (i : nat) :
  i < length time_col →
  sum_times (expand_to_lower_tri_mat time_col) !! i
  = Some (np.sum (take i time_col)).
Proof.
  intros Hi. rewrite sum_times_tab, tab_lookup_lt by done. f_equal.
  rewrite (tab_nth (take i time_col) 0%R), sum_tab.
  rewrite length_take, Nat.min_l by lia.
  apply big_sum_ext. intros j Hj.
  by rewrite !nth_lookup, lookup_take_lt.
Qed.

Lemma sum_times_entries_witness :
  sum_times (expand_to_lower_tri_mat [2; 3; 1]%R) !! 2 = Some (np.sum [2; 3]%R).
Proof. apply (sum_times_entries [2; 3; 1]%R 2). cbn. lia. Defined.

(** ** The hazard rate *)

(** X18. For a duration [t > 0] and a probability [0 < p < 1] the rate
    that [get_lambdas] computes is positive and is the rate at which an
    exponential clock fires within [t] with probability exactly [p]:
    [1 - exp (- rate * t) = p]. *)
Theorem get_lambdas_hazard (time prob : list R) (j : nat) (t p : R) :
  time !! j = Some t → prob !! j = Some p →
  (0 < t)%R → (0 < p < 1)%R →
  ∃ rate, get_lambdas time prob !! j = Some rate
          ∧ (0 < rate)%R
          ∧ (1 - exp (- rate * t) = p)%R.
Proof.
  intros Ht Hp Htpos [Hp0 Hp1].
  exists (1 / t * ln (1 / (1 - p)))%R. split; [|split].
  - unfold get_lambdas, np.mul, np.rdiv, np.log, np.rsub.
    rewrite lookup_zip_with, !list_lookup_fmap, Ht, Hp. reflexivity.
  - assert (0 < ln (1 / (1 - p)))%R.
    { rewrite <- ln_1. apply ln_increasing; [lra|].
      apply (Rmult_lt_reg_r (1 - p)); [lra|]. field_simplify; lra. }
    apply Rmult_lt_0_compat; [|done].
    apply Rdiv_lt_0_compat; lra.
  - replace (- (1 / t * ln (1 / (1 - p))) * t)%R with (- ln (1 / (1 - p)))%R
      by (field; lra).
    rewrite exp_Ropp, exp_ln.
    + field. lra.
    + apply Rdiv_lt_0_compat; lra.
Qed.

Lemma get_lambdas_hazard_witness :
  ∃ rate, get_lambdas [2; 3]%R [0.5; 0.2]%R !! 1 = Some rate
          ∧ (0 < rate)%R
          ∧ (1 - exp (- rate * 3) = 0.2)%R.
Proof.
  apply (get_lambdas_hazard [2; 3]%R [0.5; 0.2]%R 1 3%R 0.2%R).
  - reflexivity.
  - reflexivity.
  - lra.
  - lra.
Defined.

(** ** Bounds on the expected time *)

Section Bounds.
Local Open Scope R_scope.

Lemma ln_le_sub (x : R) : 0 < x → ln x <= x - 1.
Proof.
  intros Hx. pose proof (exp_ineq1_le (ln x)) as H.
  rewrite exp_ln in H by done. lra.
Qed.

(** The expected time spent in a task, given that it fails, lies
    between 0 and the duration of the task. *)
Lemma conditional_time_bounds (t p : R) :
  0 <= t → 0 < p < 1 →
  0 <= - (t / p) + t / ln (1 / (1 - p)) + t <= t.
Proof.
  intros Ht [Hp0 Hp1].
  set (L := ln (1 / (1 - p))).
  assert (HpL : p <= L).
  { unfold L. replace (1 / (1 - p)) with (/ (1 - p)) by (field; lra).
    rewrite ln_Rinv by lra. pose proof (ln_le_sub (1 - p)). lra. }
  assert (HLp : L <= p / (1 - p)).
  { unfold L. pose proof (ln_le_sub (1 / (1 - p))) as H.
    replace (p / (1 - p)) with (1 / (1 - p) - 1) by (field; lra).
    apply H. apply Rdiv_lt_0_compat; lra. }
  assert (HL : 0 < L) by lra.
  assert (Hinv1 : / L <= / p) by (apply Rinv_le_contravar; lra).
  assert (Hinv2 : (1 - p) / p <= / L).
  { replace ((1 - p) / p) with (/ (p / (1 - p))) by (field; lra).
    apply Rinv_le_contravar; lra. }
  assert (Hp' : / p * p = 1) by (field; lra).
  unfold Rdiv in *. split; nra.
Qed.

Lemma big_sum_le (f g : nat → R) (n : nat) :
  (∀ i, (i < n)%nat → f i <= g i) → big_sum f n <= big_sum g n.
Proof.
  induction n as [|n IH]; intros Hfg; cbn; [lra|].
  pose proof (Hfg n ltac:(lia)). assert (big_sum f n <= big_sum g n); [|lra].
  apply IH. intros i Hi. apply Hfg. lia.
Qed.

Lemma big_sum_scal (w : nat → R) (c : R) (n : nat) :
  big_sum (fun i => w i * c) n = big_sum w n * c.
Proof. induction n as [|n IH]; cbn; [ring|]. rewrite IH. ring. Qed.

Lemma big_sum_zero (n : nat) : big_sum (fun _ => 0) n = 0.
Proof. induction n as [|n IH]; cbn; [reflexivity|]. rewrite IH. ring. Qed.

Lemma big_prod_nonneg (q : nat → R) (n : nat) :
  (∀ i, (i < n)%nat → 0 <= q i) → 0 <= big_prod q n.
Proof.
  induction n as [|n IH]; intros Hq; cbn; [lra|].
  apply Rmult_le_pos; [apply IH; intros i Hi; apply Hq; lia|apply Hq; lia].
Qed.

Lemma big_sum_prefix (T : nat → R) (i n : nat) :
  (i <= n)%nat → (∀ j, (j < n)%nat → 0 <= T j) →
  0 <= big_sum T i <= big_sum T n.
Proof.
  intros Hin HT. induction n as [|n IH].
  - assert (i = 0%nat) as -> by lia. cbn. lra.
  - destruct (decide (i = S n)) as [->|Hne].
    + split; [|lra].
      rewrite <- (big_sum_zero (S n)). apply big_sum_le. intros j Hj. by apply HT.
    + cbn. pose proof (HT n ltac:(lia)).
      assert (0 <= big_sum T i <= big_sum T n); [|lra].
      apply IH; [lia|]. intros j Hj. apply HT. lia.
Qed.

Lemma closed_form_bounds (p t : list R) :
  length t = length p →
  (∀ i, (i < length p)%nat → 0 < nth i p 0 < 1) →
  (∀ i, (i < length p)%nat → 0 <= nth i t 0) →
  0 <= closed_form p t <= np.sum t.
Proof.
  intros Hlen Hp Ht. unfold closed_form.
  set (n := length p) in *.
  set (P := fun i => nth i p 0). set (T := fun i => nth i t 0).
  set (Q := fun i => 1 - P i).
  set (W := fun i => P i * big_prod Q i).
  set (E := fun i => big_sum T i - T i / P i + T i / ln (1 / (1 - P i)) + T i).
  set (S := big_sum T n).
  assert (HS : np.sum t = S).
  { rewrite (tab_nth t 0) at 1. rewrite sum_tab, Hlen. reflexivity. }
  rewrite HS.
  assert (HW : ∀ i, (i < n)%nat → 0 <= W i).
  { intros i Hi. unfold W. apply Rmult_le_pos; [specialize (Hp i Hi); fold (P i) in Hp; lra|].
    apply big_prod_nonneg. intros k Hk. unfold Q.
    specialize (Hp k ltac:(lia)). fold (P k) in Hp. lra. }
  assert (HE : ∀ i, (i < n)%nat → 0 <= E i <= S).
  { intros i Hi. unfold E.
    pose proof (conditional_time_bounds (T i) (P i) (Ht i Hi) (Hp i Hi)) as Hc.
    pose proof (big_sum_prefix T i n ltac:(lia) Ht) as H1.
    pose proof (big_sum_prefix T (Datatypes.S i) n ltac:(lia) Ht) as H2.
    cbn in H2. fold S in H1, H2. lra. }
  assert (Htel : big_prod Q n + big_sum W n = 1).
  { rewrite (big_sum_ext W (fun i => big_prod Q i * P i)).
    - by apply big_prod_telescope.
    - intros i _. unfold W. ring. }
  assert (HQ : 0 <= big_prod Q n).
  { apply big_prod_nonneg. intros k Hk. unfold Q.
    specialize (Hp k Hk). fold (P k) in Hp. lra. }
  assert (HS0 : 0 <= S).
  { apply (big_sum_prefix T n n); [lia|done]. }
  change (0 <= big_prod Q n * S + big_sum (fun i => W i * E i) n <= S).
  assert (Hlo : 0 <= big_sum (fun i => W i * E i) n).
  { rewrite <- (big_sum_zero n). apply big_sum_le. intros i Hi.
    apply Rmult_le_pos; [by apply HW|by apply HE]. }
  assert (Hhi : big_sum (fun i => W i * E i) n <= big_sum W n * S).
  { rewrite <- big_sum_scal. apply big_sum_le. intros i Hi.
    apply Rmult_le_compat_l; [by apply HW|by apply HE]. }
  split; [nra|]. nra.
Qed.
End Bounds.

Lemma nth_reindex (col : list R) (perm : list nat) (i : nat) :
  i < length perm →
  ∃ index, perm !! i = Some index
           ∧ nth i (reindex col perm) 0%R = nth (index - 1) col 0%R.
Proof.
  intros Hi. destruct (lookup_lt_is_Some_2 perm i Hi) as [index Hindex].
  exists index. split; [done|].
  unfold reindex. by rewrite nth_lookup, list_lookup_fmap, Hindex.
Qed.

(** X19. For a table with probabilities strictly between 0 and 1 and
    positive durations, the expected time that [get_expected_times]
    computes for an ordering is at least 0 and at most the sum of the
    durations of the ordering. *)
Theorem expected_time_bounds (df : DataFrame) (perm : list nat) :
  (∀ row, row ∈ df → (0 < Probability row < 1)%R ∧ (0 < Time row)%R) →
  (∀ index, index ∈ perm → 1 ≤ index ≤ length df) →
  ∃ e, expected_time df perm = Ok e
       ∧ (0 <= e <= np.sum (reindex (Time <$> df) perm))%R.
Proof.
  intros Hrows Hrange. eexists. split; [by apply expected_time_closed_form|].
  assert (Hrow : ∀ i, i < length perm → ∃ row,
             row ∈ df
             ∧ nth i (reindex (Probability <$> df) perm) 0%R = Probability row
             ∧ nth i (reindex (Time <$> df) perm) 0%R = Time row).
  { intros i Hi.
    destruct (nth_reindex (Probability <$> df) perm i Hi) as (index & Hindex & HP).
    destruct (nth_reindex (Time <$> df) perm i Hi) as (index' & Hindex' & HT).
    assert (index' = index) as -> by congruence.
    destruct (Hrange index (list_elem_of_lookup_2 _ _ _ Hindex)) as [H1 Hn].
    destruct (lookup_lt_is_Some_2 df (index - 1)) as [row Hr]; [lia|].
    exists row. split; [by eapply list_elem_of_lookup_2|].
    rewrite HP, HT, !nth_lookup, !list_lookup_fmap, Hr. done. }
  apply closed_form_bounds.
  - by rewrite !length_reindex.
  - intros i Hi. rewrite length_reindex in Hi.
    destruct (Hrow i Hi) as (row & Hin & -> & _). by apply Hrows.
  - intros i Hi. rewrite length_reindex in Hi.
    destruct (Hrow i Hi) as (row & Hin & _ & ->).
    destruct (Hrows row Hin) as [_ Ht]. lra.
Qed.

Lemma expected_time_bounds_witness :
  ∃ e, expected_time df_two [2; 1] = Ok e
       ∧ (0 <= e <= np.sum (reindex (Time <$> df_two) [2; 1]%nat))%R.
Proof.
  apply (expected_time_bounds df_two [2; 1]).
  - intros row Hrow. apply list_elem_of_In in Hrow. cbn in Hrow.
    destruct Hrow as [<-|[<-|[]]]; cbn; split; lra.
  - intros index Hin. apply list_elem_of_In in Hin. cbn in Hin.
    destruct Hin as [<-|[<-|[]]]; cbn; lia.
Defined.

(** ** What does not depend on the ordering *)

Lemma prod_cons (x : R) (a : list R) : np.prod (x :: a) = (x * np.prod a)%R.
Proof. unfold np.prod. cbn. rewrite fold_mult_acc. unfold np.prod. ring. Qed.

Lemma sum_cons (x : R) (a : list R) : np.sum (x :: a) = (x + np.sum a)%R.
Proof. unfold np.sum. cbn. rewrite fold_plus_acc. unfold np.sum. ring. Qed.

Lemma prod_Permutation (a b : list R) : a ≡ₚ b → np.prod a = np.prod b.
Proof.
  induction 1 as [|x a b _ IH|x y a|a b c _ IH1 _ IH2].
  - reflexivity.
  - by rewrite !prod_cons, IH.
  - rewrite !prod_cons. ring.
  - by rewrite IH1.
Qed.

Lemma sum_Permutation (a b : list R) : a ≡ₚ b → np.sum a = np.sum b.
Proof.
  induction 1 as [|x a b _ IH|x y a|a b c _ IH1 _ IH2].
  - reflexivity.
  - by rewrite !sum_cons, IH.
  - rewrite !sum_cons. ring.
  - by rewrite IH1.
Qed.

Lemma reindex_seq (col : list R) : reindex col (seq 1 (length col)) = col.
Proof.
  apply list_eq. intros i. unfold reindex. rewrite list_lookup_fmap.
  destruct (decide (i < length col)) as [Hi|Hi].
  - rewrite lookup_seq_lt by done. cbn. rewrite Nat.sub_0_r, nth_lookup.
    by destruct (lookup_lt_is_Some_2 col i Hi) as [x ->].
  - rewrite lookup_seq_ge by lia. symmetry. apply lookup_ge_None. lia.
Qed.

Lemma reindex_Permutation (col : list R) (perm : list nat) :
  perm ≡ₚ seq 1 (length col) → reindex col perm ≡ₚ col.
Proof.
  intros Hperm. rewrite <- (reindex_seq col) at 2.
  unfold reindex. by apply fmap_Permutation.
Qed.

(** X20. For every ordering that [gen_perms] enumerates, the success
    probability [np.prod(prob_comp)] and the total time
    [np.sum(time_col)] that [expected_time_eq] uses are those of the
    table in its own order: the success probability that [main] prints
    is the one used in scoring whichever ordering is selected. *)
Theorem success_probability_order_independent (df : DataFrame) (perm : list nat) :
  perm ∈ gen_perms df →
  np.prod (np.rsub 1%R (reindex (Probability <$> df) perm))
  = np.prod (np.rsub 1%R (Probability <$> df))
  ∧ np.sum (reindex (Time <$> df) perm) = np.sum (Time <$> df).
Proof.
  intros Hperm. apply gen_perms_iff_Permutation in Hperm.
  split.
  - apply prod_Permutation. unfold np.rsub. apply fmap_Permutation.
    apply reindex_Permutation. by rewrite length_fmap.
  - apply sum_Permutation, reindex_Permutation. by rewrite length_fmap.
Qed.

Lemma success_probability_order_independent_witness :
  np.prod (np.rsub 1%R (reindex (Probability <$> df_two) [2; 1]))
  = np.prod (np.rsub 1%R (Probability <$> df_two))
  ∧ np.sum (reindex (Time <$> df_two) [2; 1]) = np.sum (Time <$> df_two).
Proof.
  apply (success_probability_order_independent df_two [2; 1]).
  apply list_elem_of_further, list_elem_of_here.
Defined.

(** ** The simulated trials *)

Section SimulationFacts.
Local Open Scope R_scope.
Variable draw : nat → R → nat → R.

Lemma sim_state_after_conservation (time lambdas : list R) (j : nat) :
  (j ≤ length lambdas)%nat →
  (length (concat (totals (sim_state_after draw time lambdas j)))
   + success_count (sim_state_after draw time lambdas j)
   = success_count sim_init)%nat.
Proof.
  induction j as [|j IH]; intros Hj.
  - unfold sim_state_after. rewrite take_0. reflexivity.
  - rewrite sim_state_after_S by lia. unfold sim_step.
    cbn [totals success_count prior_task_time fst snd].
    rewrite concat_app, length_app, length_sim. cbn [concat].
    rewrite app_nil_r. unfold np.addc. rewrite length_fmap.
    specialize (IH ltac:(lia)).
    pose proof (length_filter (fun x => x <= nth j time 0)
                  (sim draw j (nth j lambdas 0)
                     (success_count (sim_state_after draw time lambdas j)))) as Hle.
    rewrite length_sim in Hle. unfold filter_leq.
    revert IH Hle.
    generalize (success_count sim_init).
    generalize (success_count (sim_state_after draw time lambdas j)).
    generalize (length (concat (totals (sim_state_after draw time lambdas j)))).
    intros a b c. generalize (length (filter (fun x => x <= nth j time 0)
      (sim draw j (nth j lambdas 0) b))). intros d. lia.
Qed.

Lemma elem_of_concat_tab (f : nat → list R) (n : nat) (v : R) :
  v ∈ concat (tab f n) → ∃ j, (j < n)%nat ∧ v ∈ f j.
Proof.
  induction n as [|n IH]; intros Hv.
  - by apply elem_of_nil in Hv.
  - rewrite tab_S, concat_app in Hv. cbn in Hv. rewrite app_nil_r in Hv.
    apply elem_of_app in Hv as [Hv|Hv].
    + destruct (IH Hv) as (j & Hj & Hin). exists j. split; [lia|done].
    + exists n. split; [lia|done].
Qed.
End SimulationFacts.

(** X21. No trial is lost or counted twice: the number of failure
    times that [simulate_failures] returns plus the number of trials
    still alive after the last task is 50000. *)
Theorem simulate_failures_conservation (draw : nat → R → nat → R) (df : DataFrame)
    (index : list nat) :
  index ≠ [] →
  (∀ i, i ∈ index → i < length df) →
  let prob := (fun i => nth i (Probability <$> df) 0%R) <$> index in
  let time := (fun i => nth i (Time <$> df) 0%R) <$> index in
  let lambdas := get_lambdas time prob in
  ∃ vals,
    simulate_failures draw df index = Ok vals
    ∧ length vals
      + success_count (sim_state_after draw time lambdas (length index))
      = 50000.
Proof.
  intros Hne Hrange prob time lambdas.
  assert (Hlen : length lambdas = length index).
  { unfold lambdas. rewrite length_get_lambdas; unfold time, prob;
      by rewrite !length_fmap. }
  exists (concat (totals (sim_state_after draw time lambdas (length index)))).
  split.
  - rewrite (simulate_failures_concat draw df index Hne Hrange).
    fold prob time lambdas. f_equal. f_equal. symmetry.
    by apply sim_state_after_spec; rewrite Hlen.
  - apply (sim_state_after_conservation draw time lambdas (length index)).
    by rewrite Hlen.
Qed.

Lemma simulate_failures_conservation_witness :
  ∃ vals,
    simulate_failures draw_one df_two [1; 0] = Ok vals
    ∧ length vals
      + success_count
          (sim_state_after draw_one [3%R; 2%R]
             (get_lambdas [3%R; 2%R] [0.2%R; 0.5%R]) 2)
      = 50000.
Proof.
  apply (simulate_failures_conservation draw_one df_two [1; 0]).
  - discriminate.
  - intros i Hi. apply list_elem_of_In in Hi. cbn in Hi.
    destruct Hi as [<-|[<-|[]]]; cbn; lia.
Defined.

(** X22. When the sampler returns non-negative values and no duration
    is negative, every failure time that [simulate_failures] returns
    lies between 0 and the total duration of the ordering. *)
Theorem simulate_failures_sample_range (draw : nat → R → nat → R) (df : DataFrame)
    (index : list nat) :
  index ≠ [] →
  (∀ i, i ∈ index → i < length df) →
  (∀ call rate k, (0 <= draw call rate k)%R) →
  (∀ row, row ∈ df → (0 <= Time row)%R) →
  let time := (fun i => nth i (Time <$> df) 0%R) <$> index in
  ∃ vals,
    simulate_failures draw df index = Ok vals
    ∧ ∀ v, v ∈ vals → (0 <= v <= np.sum time)%R.
Proof.
  intros Hne Hrange Hdraw Htime time.
  eexists. split; [by apply simulate_failures_concat|].
  fold time. intros v Hv.
  apply elem_of_concat_tab in Hv as (j & Hj & Hv).
  unfold spec_recorded in Hv.
  apply list_elem_of_fmap in Hv as (x & -> & Hx).
  unfold spec_failed in Hx. apply list_elem_of_filter in Hx as [Hle Hx].
  apply list_elem_of_fmap in Hx as (k & -> & _).
  assert (HT : ∀ i, i < length time → (0 <= nth i time 0)%R).
  { intros i Hi. unfold time in *. rewrite length_fmap in Hi.
    destruct (lookup_lt_is_Some_2 index i Hi) as [pos Hpos].
    rewrite nth_lookup, list_lookup_fmap, Hpos. cbn.
    pose proof (Hrange pos (list_elem_of_lookup_2 _ _ _ Hpos)) as Hlt.
    destruct (lookup_lt_is_Some_2 df pos Hlt) as [row Hrow].
    rewrite nth_lookup, list_lookup_fmap, Hrow. cbn.
    by eapply Htime, list_elem_of_lookup_2. }
  assert (Hlen : length time = length index) by (unfold time; by rewrite length_fmap).
  assert (Hsum : np.sum time = big_sum (fun i => nth i time 0%R) (length time)).
  { rewrite <- sum_tab. f_equal. apply tab_nth. }
  rewrite Hsum. unfold spec_elapsed.
  pose proof (big_sum_prefix (fun i => nth i time 0%R) j (length time)
                ltac:(lia) HT) as H1.
  pose proof (big_sum_prefix (fun i => nth i time 0%R) (S j) (length time)
                ltac:(lia) HT) as H2.
  cbn in H2. specialize (Hdraw j (nth j (get_lambdas time
    ((fun i => nth i (Probability <$> df) 0%R) <$> index)) 0%R) k).
  lra.
Qed.

Lemma simulate_failures_sample_range_witness :
  ∃ vals,
    simulate_failures draw_one df_two [1; 0] = Ok vals
    ∧ ∀ v, v ∈ vals → (0 <= v <= np.sum [3; 2])%R.
Proof.
  apply (simulate_failures_sample_range draw_one df_two [1; 0]).
  - discriminate.
  - intros i Hi. apply list_elem_of_In in Hi. cbn in Hi.
    destruct Hi as [<-|[<-|[]]]; cbn; lia.
  - intros call rate k. unfold draw_one. lra.
  - intros row Hrow. apply list_elem_of_In in Hrow. cbn in Hrow.
    destruct Hrow as [<-|[<-|[]]]; cbn; lra.
Defined.

(** ** Trimming the sheet *)

Lemma where_from_bounds (flags : list bool) : ∀ i loc rest,
  where_from i flags = loc :: rest → i ≤ loc < i + length flags.
Proof.
  induction flags as [|b flags IH]; intros i loc rest; cbn; [discriminate|].
  destruct b.
  - intros [= <- _]. lia.
  - intros Hw. apply IH in Hw. lia.
Qed.

Lemma where_from_first (flags : list bool) : ∀ i loc,
  flags !! loc = Some true →
  (∀ j, j < loc → flags !! j = Some false) →
  ∃ rest, where_from i flags = (i + loc) :: rest.
Proof.
  induction flags as [|b flags IH]; intros i loc Hloc Hbefore; [done|].
  destruct loc as [|loc]; cbn in Hloc.
  - injection Hloc as ->. cbn. rewrite Nat.add_0_r. by eexists.
  - specialize (Hbefore 0 ltac:(lia)) as Hb. cbn in Hb. injection Hb as ->.
    cbn. destruct (IH (S i) loc Hloc) as [rest ->].
    + intros j Hj. apply (Hbefore (S j)). lia.
    + exists rest. f_equal. lia.
Qed.

Lemma nonzero_extent_lt (flags : list bool) :
  flags ≠ [] → nonzero_extent flags (length flags) < length flags.
Proof.
  intros Hne. unfold nonzero_extent, np_where.
  destruct (where_from 0 flags) as [|loc rest] eqn:Hw.
  - destruct flags; [done|]. cbn. lia.
  - apply where_from_bounds in Hw. lia.
Qed.

Lemma length_all_zero_axis0 (df : frame) :
  length (all_zero_axis0 df) = columns df.
Proof. unfold all_zero_axis0. by rewrite length_fmap, length_seq. Qed.

Lemma length_all_zero_axis1 (df : frame) :
  length (all_zero_axis1 df) = length (values df).
Proof. unfold all_zero_axis1. by rewrite length_fmap. Qed.

(** X23. [trim_df] always cuts: from a sheet with at least one row and
    one column it returns strictly fewer rows and strictly fewer
    columns, whether or not any of them is blank. *)
Theorem trim_df_always_cuts (df : frame) :
  values df ≠ [] → 0 < columns df →
  length (values (trim_df df)) < length (values df)
  ∧ columns (trim_df df) < columns df.
Proof.
  intros Hrows Hcols. unfold trim_df, iloc_upto. cbn [values columns].
  rewrite length_fmap, length_take.
  pose proof (nonzero_extent_lt (all_zero_axis1 df)) as H1.
  pose proof (nonzero_extent_lt (all_zero_axis0 df)) as H0.
  rewrite length_all_zero_axis1 in H1. rewrite length_all_zero_axis0 in H0.
  split.
  - assert (all_zero_axis1 df ≠ []).
    { intros Heq. apply (f_equal length) in Heq.
      rewrite length_all_zero_axis1 in Heq. by destruct (values df). }
    specialize (H1 ltac:(done)). lia.
  - assert (all_zero_axis0 df ≠ []).
    { intros Heq. apply (f_equal length) in Heq.
      rewrite length_all_zero_axis0 in Heq. cbn in Heq. lia. }
    specialize (H0 ltac:(done)). lia.
Qed.

Lemma trim_df_always_cuts_witness :
  length (values (trim_df sheet_full)) < length (values sheet_full)
  ∧ columns (trim_df sheet_full) < columns sheet_full.
Proof.
  apply (trim_df_always_cuts sheet_full).
  - discriminate.
  - cbn. lia.
Defined.

(** X24. When row [r] is the first row holding only zeros and column
    [c] the first column holding only zeros, [trim_df] returns the
    rows before [r] cut to the columns before [c]; whatever stands
    after the first blank row or column is dropped. *)
Theorem trim_df_first_blank (df : frame) (r c : nat) :
  all_zero_axis1 df !! r = Some true →
  (∀ i, i < r → all_zero_axis1 df !! i = Some false) →
  all_zero_axis0 df !! c = Some true →
  (∀ j, j < c → all_zero_axis0 df !! j = Some false) →
  trim_df df = {| columns := c; values := take c <$> take r (values df) |}.
Proof.
  intros Hr Hbr Hc Hbc. unfold trim_df, nonzero_extent, np_where.
  destruct (where_from_first _ 0 r Hr Hbr) as [rest1 ->].
  destruct (where_from_first _ 0 c Hc Hbc) as [rest0 ->].
  unfold iloc_upto. cbn. f_equal.
  apply lookup_lt_Some in Hc. rewrite length_all_zero_axis0 in Hc. lia.
Qed.

Lemma trim_df_first_blank_witness :
  trim_df sheet_gap
  = {| columns := 4; values := take 4 <$> take 1 (values sheet_gap) |}.
Proof.
  apply (trim_df_first_blank sheet_gap 1 4).
  - reflexivity.
  - intros i Hi. assert (i = 0) as -> by lia. reflexivity.
  - reflexivity.
  - intros j Hj.
    destruct j as [|[|[|[|j]]]]; [reflexivity..|lia].
Defined.

Lemma fill_cell_blank (c : raw_cell) : blank c → is_zero (fill_cell c) = true.
Proof.
  destruct c as [|q|s]; cbn; [done|done|].
  intros Hs. by rewrite bool_decide_true.
Qed.

(** X25. A sheet in which every cell is missing, empty, "0" or 0 comes
    out of [fill_blanks] and [trim_df] as the empty table. *)
Theorem blank_sheet_trims_to_nothing (df : raw_frame) :
  (∀ row c, row ∈ raw_values df → c ∈ row → blank c) →
  trim_df (fill_blanks df) = {| columns := 0; values := [] |}.
Proof.
  intros Hblank. unfold trim_df.
  assert (Hrows : nonzero_extent (all_zero_axis1 (fill_blanks df))
                    (length (values (fill_blanks df))) = 0).
  { unfold nonzero_extent, np_where, all_zero_axis1, fill_blanks. cbn.
    destruct (raw_values df) as [|row rows] eqn:Hv; [reflexivity|].
    cbn. rewrite (proj2 (forallb_forall _ _)); [reflexivity|].
    intros x Hx. apply list_elem_of_In, list_elem_of_fmap in Hx as (c & -> & Hc).
    apply fill_cell_blank, (Hblank row c); [apply list_elem_of_here|done]. }
  assert (Hcols : nonzero_extent (all_zero_axis0 (fill_blanks df))
                    (columns (fill_blanks df)) = 0).
  { unfold nonzero_extent, np_where, all_zero_axis0, fill_blanks. cbn.
    destruct (raw_columns df) as [|n]; [reflexivity|].
    cbn. rewrite (proj2 (forallb_forall _ _)); [reflexivity|].
    intros x Hx. apply list_elem_of_In, list_elem_of_fmap in Hx as (row & -> & Hrow).
    rewrite list_lookup_fmap. destruct (row !! 0) as [c|] eqn:Hc; [|done].
    cbn. apply fill_cell_blank, (Hblank row c); [done|].
    by eapply list_elem_of_lookup_2. }
  rewrite Hrows, Hcols. unfold iloc_upto. cbn. by rewrite take_0.
Qed.

Lemma blank_sheet_trims_to_nothing_witness :
  trim_df (fill_blanks {| raw_columns := 2;
                          raw_values := [ [RStr ""; RNaN]; [RStr "0"; RNum 0] ] |})
  = {| columns := 0; values := [] |}.
Proof.
  apply (blank_sheet_trims_to_nothing
           {| raw_columns := 2;
              raw_values := [ [RStr ""; RNaN]; [RStr "0"; RNum 0] ] |}).
  intros row c Hrow Hc. cbn in Hrow.
  apply list_elem_of_In in Hrow. cbn in Hrow.
  destruct Hrow as [<-|[<-|[]]];
    apply list_elem_of_In in Hc; cbn in Hc;
    destruct Hc as [<-|[<-|[]]]; cbn; auto.
Defined.
